(** * MiniZinc [utils.hh]: the command-line option matcher and the version type

    A shallow embedding of [include/minizinc/utils.hh]:

    - [CLOParser::getOption], the per-option matcher that works on a shared
      cursor [_i] into the argument vector [_argv];
    - the two overloads of [assign_string];
    - [beginswith], [HadOne], [split] and [vec_string2vec_pchar];
    - [SemanticVersion] with its construction from a string, its output
      and its comparison operators.

    Conventions of the embedding.

    - [std::string] is [string]; [std::vector<std::string>] is [list string].
    - [int] is a [Z] in the range of a 32-bit two's complement integer.
      Where [_i++] or [--_i] leaves that range, which the language does not
      define, the result is taken modulo 2^32.  [size_t] is 64 bits wide,
      and the comparison [_i >= _argv.size()] converts [_i] to [size_t]
      first, as the usual arithmetic conversions do.
    - A pointer [Value* pResult] is an [option T]: [None] is [nullptr],
      [Some t] is a valid pointer whose pointee currently holds [t].
    - A [std::istringstream] is the string of characters not read yet.  The
      stream is imbued with the classic "C" locale.
    - [assert] is controlled by [NDEBUG]: when [NDEBUG] is not defined a
      failing assertion aborts the program. *)

From Stdlib Require Import ZArith List String Ascii Bool Lia.
Import ListNotations.

Local Open Scope string_scope.
Local Open Scope list_scope.
Local Open Scope Z_scope.

(** ** Machine integers *)

Module Int.

Definition INT_MIN : Z := - 2 ^ 31.
Definition INT_MAX : Z := 2 ^ 31 - 1.

(** The values of type [int]. *)
Definition in_range (z : Z) : Prop := INT_MIN <= z <= INT_MAX.

(** Reduction of a mathematical integer to the [int] that represents it. *)
Definition wrap (z : Z) : Z := (z + 2 ^ 31) mod 2 ^ 32 - 2 ^ 31.

(** [_i++] and [--_i]. *)
Definition incr (i : Z) : Z := wrap (i + 1).
Definition decr (i : Z) : Z := wrap (i - 1).

(** Conversion of an [int] to [size_t]. *)
Definition to_size_t (z : Z) : Z := z mod 2 ^ 64.

End Int.

(** ** Strings and string streams *)

(** [std::string::size]. *)
Definition size (s : string) : Z := Z.of_nat (String.length s).

(** The characters of [s] from position [n] on. *)
Fixpoint drop (n : nat) (s : string) : string :=
  match n, s with
  | O, _ => s
  | S _, EmptyString => EmptyString
  | S n', String _ r => drop n' r
  end.

(** [s.erase(pos, n)]: removes [min n (size s - pos)] characters from
    position [pos] on. *)
Definition erase (s : string) (pos n : nat) : string :=
  (substring 0 pos s ++ drop (pos + n) s)%string.

(** [s.compare(pos, n, t)]: compares the substring of [s] that starts at
    [pos] and has [min n (size s - pos)] characters with [t]; the result is
    [Eq] where the C++ function returns 0. *)
Definition compare (s : string) (pos n : nat) (t : string) : comparison :=
  String.compare (substring pos (Nat.min n (String.length s - pos)) s) t.

(** [strchr(s, c)]: the suffix of [s] that starts at the first occurrence
    of [c], [None] for the null pointer. *)
Fixpoint strchr (s : string) (c : ascii) : option string :=
  match s with
  | EmptyString => None
  | String d r => if Ascii.eqb d c then Some s else strchr r c
  end.

(** [std::isspace] in the classic locale: space, and the control characters
    from horizontal tab to carriage return. *)
Definition isspace (c : ascii) : bool :=
  let n := N_of_ascii c in
  ((n =? 32) || ((9 <=? n) && (n <=? 13)))%N.

Definition isdigit (c : ascii) : bool :=
  let n := N_of_ascii c in
  ((48 <=? n) && (n <=? 57))%N.

Definition digit_value (c : ascii) : Z := Z.of_N (N_of_ascii c) - 48.

(** Formatted input starts by skipping white space. *)
Fixpoint skipws (iss : string) : string :=
  match iss with
  | EmptyString => EmptyString
  | String c r => if isspace c then skipws r else iss
  end.

(** The characters up to the next white space, and the rest of the stream. *)
Fixpoint read_word (iss : string) : string * string :=
  match iss with
  | EmptyString => (EmptyString, EmptyString)
  | String c r =>
      if isspace c then (EmptyString, iss)
      else let (w, rest) := read_word r in (String c w, rest)
  end.

(** [iss >> word] for a [std::string]: [None] when the extraction fails (the
    stream ends before a character of the word), otherwise the word and the
    rest of the stream. *)
Definition extract_string (iss : string) : option (string * string) :=
  match skipws iss with
  | EmptyString => None
  | s => Some (read_word s)
  end.

(** The values that [keyword] takes in the successive iterations of
    [while (iss >> keyword)], by one pass over the stream; [cur] holds the
    characters of the word being read. *)
Fixpoint words_from (cur : string) (iss : string) : list string :=
  match iss with
  | EmptyString =>
      match cur with EmptyString => [] | _ => [cur] end
  | String c r =>
      if isspace c then
        match cur with
        | EmptyString => words_from EmptyString r
        | _ => cur :: words_from EmptyString r
        end
      else words_from (cur ++ String c EmptyString)%string r
  end.

Definition stream_words (iss : string) : list string :=
  words_from EmptyString iss.

(** The decimal digits at the head of the stream, accumulated on [acc]. *)
Fixpoint read_digits (acc : Z) (iss : string) : Z * string :=
  match iss with
  | EmptyString => (acc, EmptyString)
  | String c r =>
      if isdigit c then read_digits (10 * acc + digit_value c) r
      else (acc, iss)
  end.

(** The first character of [s], if any, is not a decimal digit. *)
Definition no_leading_digit (s : string) : bool :=
  match s with
  | EmptyString => true
  | String c _ => negb (isdigit c)
  end.

(** The optional sign at the head of a number: whether it is a minus, and
    the stream after it. *)
Definition read_sign (iss : string) : bool * string :=
  match iss with
  | EmptyString => (false, iss)
  | String c r =>
      if Ascii.eqb c "-" then (true, r)
      else if Ascii.eqb c "+" then (false, r)
      else (false, iss)
  end.

(** [iss >> tmp] for an [int] (the [num_get] facet with the default flags:
    white space skipped, base ten): an optional sign, then all the digits
    that follow; the extraction fails when there is no digit or when the
    number is not representable in an [int]. *)
Definition extract_int (iss : string) : option (Z * string) :=
  let (negative, s1) := read_sign (skipws iss) in
  if negb (no_leading_digit s1) then
    let (n, rest) := read_digits 0 s1 in
    let v := if negative then - n else n in
    if (Int.INT_MIN <=? v) && (v <=? Int.INT_MAX) then Some (v, rest)
    else None
  else None.

(** ** Value types of an option *)

(** What [getOption] needs of its template parameter [Value]: the overload
    of [assign_string] that is selected for it, which returns its result
    together with the new content of the pointee, and the extraction
    [iss >> tmp] from a fresh stream over the value text. *)
Class Value (T : Type) : Type := {
  assign_string : T -> string -> bool * T;
  extract : string -> option (T * string)
}.

(** The primary template of [assign_string] ignores both arguments. *)
Definition GenericValue {T : Type} (ex : string -> option (T * string))
  : Value T :=
  {| assign_string := fun t _ => (false, t);
     extract := ex |}.

(** The specialisation for [std::string] stores the text as it is. *)
#[export] Instance StringValue : Value string :=
  {| assign_string := fun _ s => (true, s);
     extract := extract_string |}.

#[export] Instance IntValue : Value Z := GenericValue extract_int.

(** The overloads that the header defines. *)
Inductive source_overload : forall T : Type, Value T -> Prop :=
| overload_generic (T : Type) (ex : string -> option (T * string)) :
    source_overload T (GenericValue ex)
| overload_string : source_overload string StringValue.

(** ** CLOParser *)

(** [nullptr == p]. *)
Definition is_null {A : Type} (p : option A) : bool :=
  match p with
  | None => true
  | Some _ => false
  end.

(** How a call ends: by [return], with the result, the cursor [_i] and the
    content of [*pResult] as the call leaves them, or in a failed
    assertion. *)
Inductive outcome (T : Type) : Type :=
| Returned (result : bool) (i : Z) (pResult : option T)
| Aborted.
Arguments Returned {T} result i pResult.
Arguments Aborted {T}.

(** What one iteration of the loop over the keywords does: [continue] (with
    the local copy [arg] of the token) or [return]. *)
Inductive control (T : Type) : Type :=
| Continue (arg : string)
| Return (result : bool) (i : Z) (pResult : option T).
Arguments Continue {T} arg.
Arguments Return {T} result i pResult.

Section CLOParser.

Context {T : Type} {V : Value T}.

(** The build: [true] when [NDEBUG] is defined. *)
Variable NDEBUG : bool.

(** The argument vector that the parser refers to. *)
Variable _argv : list string.

(** [assert(c)]: [true] when execution goes on. *)
Definition assert (c : bool) : bool := NDEBUG || c.

(** [_i >= _argv.size()]. *)
Definition at_end (i : Z) : bool :=
  Z.of_nat (List.length _argv) <=? Int.to_size_t i.

(** [_argv[_i]]; the function reads it only after [_i >= _argv.size()]
    was found false, so the index is in range. *)
Definition argv_at (i : Z) : string :=
  nth (Z.to_nat (Int.to_size_t i)) _argv EmptyString.

(** The condition of the first [if] in the loop: [true] when the keyword
    is passed over. *)
Definition skipped (pResult : option T) (keyword arg : string) : bool :=
  (((2 <? size keyword) || is_null pResult)
     && negb (String.eqb arg keyword))
  || (match compare arg 0 (String.length keyword) keyword with
      | Eq => false
      | _ => true
      end).

(** From [assert(pResult)] to the end of the loop body: the conversion of
    the value text [arg] into the pointee, which holds [t].  The assertion
    is reached with a pointer that is not null only. *)
Definition convert (combinedArg : bool) (arg : string) (i : Z) (t : T)
    (fValueOptional : bool) : control T :=
  let (assigned, t1) := assign_string t arg in
  if assigned then Return true i (Some t1)
  else
    match extract arg with
    | None =>
        let i1 := if negb combinedArg then Int.decr i else i in
        Return fValueOptional i1 (Some t1)
    | Some (tmp, _) => Return true i (Some tmp)
    end.

(** The part of the loop body after the comparison ("Process it"). *)
Definition process (pResult : option T) (fValueOptional : bool)
    (keyword arg : string) (i : Z) : control T :=
  if size keyword <? size arg then
    match pResult with
    | None => Continue arg
    | Some t =>
        convert true (erase arg 0 (String.length keyword)) i t fValueOptional
    end
  else
    match pResult with
    | None => Return true i None
    | Some t =>
        let i1 := Int.incr i in
        if at_end i1 then Return fValueOptional (Int.decr i1) (Some t)
        else convert false (argv_at i1) i1 t fValueOptional
    end.

(** The loop body. *)
Definition body (pResult : option T) (fValueOptional : bool)
    (keyword arg : string) (i : Z) : control T :=
  if skipped pResult keyword arg then Continue arg
  else process pResult fValueOptional keyword arg i.

(** The loop [while (iss >> keyword)], over the keywords that the stream
    delivers. *)
Fixpoint loop (keywords : list string) (pResult : option T)
    (fValueOptional : bool) (arg : string) (i : Z) : outcome T :=
  match keywords with
  | [] => Returned false i pResult
  | keyword :: rest =>
      match body pResult fValueOptional keyword arg i with
      | Continue arg' => loop rest pResult fValueOptional arg' i
      | Return result i' pResult' => Returned result i' pResult'
      end
  end.

Definition getOption (names : string) (pResult : option T)
    (fValueOptional : bool) (i : Z) : outcome T :=
  if negb (assert (is_null (strchr names ","%char))) then Aborted
  else if negb (assert (is_null (strchr names ";"%char))) then Aborted
  else if at_end i then Returned false i pResult
  else loop (stream_words names) pResult fValueOptional (argv_at i) i.

(** [get] forwards to [getOption]. *)
Definition get (names : string) (pResult : option T)
    (fValueOptional : bool) (i : Z) : outcome T :=
  getOption names pResult fValueOptional i.

(** *** Vocabulary of the statements *)

(** Both assertions on [names] let the call go on. *)
Definition names_accepted (names : string) : bool :=
  assert (is_null (strchr names ","%char))
  && assert (is_null (strchr names ";"%char)).

(** The token under the cursor, when there is one. *)
Definition current_token (i : Z) : option string :=
  if at_end i then None else Some (argv_at i).

(** The first keyword of [names] that is not passed over for the token
    [arg]. *)
Definition matched_keyword (names : string) (pResult : option T)
    (arg : string) : option string :=
  find (fun keyword => negb (skipped pResult keyword arg))
       (stream_words names).

(** The cursor and the content of the slot after [n] calls in a row with
    the same arguments; [None] once a call has aborted. *)
Fixpoint probes (n : nat) (names : string) (pResult : option T)
    (fValueOptional : bool) (i : Z) : option (Z * option T) :=
  match n with
  | O => Some (i, pResult)
  | S n' =>
      match getOption names pResult fValueOptional i with
      | Returned _ i' pResult' => probes n' names pResult' fValueOptional i'
      | Aborted => None
      end
  end.

End CLOParser.

(** A string that holds no white space. *)
Fixpoint no_space (s : string) : bool :=
  match s with
  | EmptyString => true
  | String c r => negb (isspace c) && no_space r
  end.

(** A keyword as it is written in a list of names: not empty, no white
    space. *)
Definition is_keyword (s : string) : bool :=
  negb (String.eqb s EmptyString) && no_space s.

(** A string of white space only. *)
Fixpoint all_space (s : string) : bool :=
  match s with
  | EmptyString => true
  | String c r => isspace c && all_space r
  end.

(** ** Stream insertion *)

(** The character of a decimal digit. *)
Definition digit_char (d : Z) : ascii := ascii_of_N (Z.to_N (48 + d)).

(** The decimal digits of [n] in front of [acc], the last digit first, as
    the conversion of a number to characters produces them; [fuel] bounds
    the number of digits. *)
Fixpoint print_digits (fuel : nat) (n : Z) (acc : string) : string :=
  match fuel with
  | O => acc
  | S fuel' =>
      let acc' := String (digit_char (n mod 10)) acc in
      if n / 10 =? 0 then acc' else print_digits fuel' (n / 10) acc'
  end.

(** [stream << n] for an [unsigned int], which has ten decimal digits at
    most. *)
Definition print_unsigned (n : Z) : string := print_digits 10 n EmptyString.

(** ** beginswith *)

Definition beginswith (s t : string) : bool :=
  match compare s 0 (String.length t) t with
  | Eq => true
  | _ => false
  end.

(** ** HadOne *)

Module HadOne.

(** What [operator()] needs of its template parameter [N]: the conversion
    to [bool] in [if (val)], and the characters that [oss << val] writes. *)
Class Printable (N : Type) : Type := {
  to_bool : N -> bool;
  print : N -> string
}.

(** An [int]: not zero, and its decimal digits after the sign. *)
#[export] Instance IntPrintable : Printable Z :=
  {| to_bool := fun z => negb (z =? 0);
     print := fun z =>
       let sign := if z <? 0 then "-" else "" in
       (sign ++ print_unsigned (Z.abs z))%string |}.

Section Calls.

Context {N : Type} {P : Printable N}.

(** [operator()] on an object whose member is [_fHadOne]: the string that
    it returns and the member after the call; [descr] is [None] for the
    null pointer. *)
Definition call (_fHadOne : bool) (val : N) (descr : option string)
  : string * bool :=
  if to_bool val then
    let oss := if _fHadOne then ", " else "" in
    let oss := (oss ++ print val)%string in
    let oss :=
      match descr with
      | Some d => (oss ++ d)%string
      | None => oss
      end in
    (oss, true)
  else (EmptyString, _fHadOne).

Definition reset (_fHadOne : bool) : bool := false.

Definition operator_bool (_fHadOne : bool) : bool := _fHadOne.

Definition operator_not (_fHadOne : bool) : bool := negb _fHadOne.

(** Calls in a row on one object: the strings returned, in order, and the
    member after the last call. *)
Fixpoint calls (_fHadOne : bool) (args : list (N * option string))
  : list string * bool :=
  match args with
  | [] => ([], _fHadOne)
  | (val, descr) :: rest =>
      let (s, f) := call _fHadOne val descr in
      let (ss, f') := calls f rest in
      (s :: ss, f')
  end.

(** *** Vocabulary of the statements *)

(** What is written for one argument: the value, then the description. *)
Definition item (a : N * option string) : string :=
  (print (fst a) ++ match snd a with Some d => d | None => "" end)%string.

(** The items of the arguments whose value converts to [true]. *)
Definition items (args : list (N * option string)) : list string :=
  map item (filter (fun a => to_bool (fst a)) args).

End Calls.

End HadOne.

(** All the strings of a list, one after the other. *)
Definition concat_all (l : list string) : string :=
  fold_right String.append EmptyString l.

(** ** split *)

(** The loop [while (iss) { iss >> buf; words.push_back(buf); }] on a
    stream that has not failed; an extraction that fails leaves [buf] as it
    was and ends the loop after the [push_back].  [None] when [fuel]
    iterations do not reach the end. *)
Fixpoint split_loop (fuel : nat) (iss buf : string) (words : list string)
  : option (list string) :=
  match fuel with
  | O => None
  | S fuel' =>
      match extract_string iss with
      | Some (w, rest) => split_loop fuel' rest w (words ++ [w])
      | None => Some (words ++ [buf])
      end
  end.

(** [split(str, words)]: the content of [words] after the call.  Every
    iteration but the last takes a character off the stream at least. *)
Definition split (str : string) (words : list string)
  : option (list string) :=
  split_loop (S (String.length str)) str EmptyString words.

(** ** vec_string2vec_pchar *)

(** [v.resize(n)]: the first [n] elements, filled up with [x]. *)
Definition resize {A : Type} (n : nat) (x : A) (v : list A) : list A :=
  firstn n v ++ repeat x (n - List.length v).

(** [v[i] = x] for an index in range. *)
Fixpoint assign_at {A : Type} (v : list A) (i : nat) (x : A) : list A :=
  match v, i with
  | [], _ => []
  | _ :: r, O => x :: r
  | a :: r, S i' => a :: assign_at r i' x
  end.

(** The [for] loop with [k] iterations to go from index [i] on.  A pointer
    to characters is the string that it points to, [None] for the null
    pointer that [resize] fills with. *)
Fixpoint vec_loop (k i : nat) (vS : list string) (vPC : list (option string))
  : list (option string) :=
  match k with
  | O => vPC
  | S k' =>
      vec_loop k' (S i) vS (assign_at vPC i (Some (nth i vS EmptyString)))
  end.

Definition vec_string2vec_pchar (vS : list string)
    (vPC : list (option string)) : list (option string) :=
  vec_loop (List.length vS) 0 vS (resize (List.length vS) None vPC).

(** ** SemanticVersion *)

Module SemanticVersion.

(** The three fields have type [unsigned int]. *)
Record t : Type := mk { major : Z; minor : Z; patch : Z }.

Definition UINT_MAX : Z := 2 ^ 32 - 1.

Definition valid (v : t) : Prop :=
  0 <= major v <= UINT_MAX /\ 0 <= minor v <= UINT_MAX
  /\ 0 <= patch v <= UINT_MAX.

(** [operator<]. *)
Definition operator_lt (this other : t) : bool :=
  if major this <? major other then true
  else if minor this <? minor other then true
  else if patch this <? patch other then true
  else false.

(** [operator<=]. *)
Definition operator_le (this other : t) : bool :=
  if major this >? major other then false
  else if minor this >? minor other then false
  else if patch this >? patch other then false
  else true.

(** [operator==]. *)
Definition operator_eq (this other : t) : bool :=
  (major this =? major other) && (minor this =? minor other)
  && (patch this =? patch other).

(** The lexicographic order on the triple (major, minor, patch), as the
    specification words it; not taken from the code. *)
Definition lex_lt (a b : t) : bool :=
  (major a <? major b)
  || ((major a =? major b)
      && ((minor a <? minor b)
          || ((minor a =? minor b) && (patch a <? patch b)))).

Definition lex_le (a b : t) : bool :=
  lex_lt a b || ((major a =? major b) && (minor a =? minor b)
                 && (patch a =? patch b)).

(** What the conversion [%d] of [sscanf] finds at the head of the input:
    a number and the input after it, nothing that can be converted, or a
    number that an [int] cannot represent. *)
Inductive conversion : Type :=
| Converted (v : Z) (rest : string)
| NoConversion
| NotRepresentable.

(** [%d]: white space, an optional sign, decimal digits. *)
Definition scan_d (input : string) : conversion :=
  let (negative, s1) := read_sign (skipws input) in
  if negb (no_leading_digit s1) then
    let (n, rest) := read_digits 0 s1 in
    let v := if negative then - n else n in
    if (Int.INT_MIN <=? v) && (v <=? Int.INT_MAX) then Converted v rest
    else NotRepresentable
  else NoConversion.

(** The [int] that [%d] stores, read as the [unsigned int] that the field
    is. *)
Definition to_unsigned (v : Z) : Z := v mod 2 ^ 32.

(** The directive [.] of the format: the input after the dot. *)
Definition scan_dot (input : string) : option string :=
  match input with
  | EmptyString => None
  | String c r => if Ascii.eqb c "." then Some r else None
  end.

(** [sscanf(input, "%d.%d.%d", &major, &minor, &patch)] on an object whose
    fields are those of [v]: the fields after the call; [None] when a
    number is not representable, for which the result of [sscanf] is not
    defined. *)
Definition sscanf (input : string) (v : t) : option t :=
  match scan_d input with
  | NotRepresentable => None
  | NoConversion => Some v
  | Converted n1 r1 =>
      let v1 := mk (to_unsigned n1) (minor v) (patch v) in
      match scan_dot r1 with
      | None => Some v1
      | Some i2 =>
          match scan_d i2 with
          | NotRepresentable => None
          | NoConversion => Some v1
          | Converted n2 r2 =>
              let v2 := mk (major v1) (to_unsigned n2) (patch v1) in
              match scan_dot r2 with
              | None => Some v2
              | Some i3 =>
                  match scan_d i3 with
                  | NotRepresentable => None
                  | NoConversion => Some v2
                  | Converted n3 _ =>
                      Some (mk (major v2) (minor v2) (to_unsigned n3))
                  end
              end
          end
      end
  end.

(** How the construction from a string ends. *)
Inductive construction : Type :=
| Constructed (v : t)
| OutOfRange
| Undefined.

(** [SemanticVersion(std::string version)].  [version.compare(pos, ...)]
    throws [std::out_of_range] when [pos] is beyond the size of the string,
    and [version.size() - 1] is computed in [size_t]. *)
Definition from_string (version : string) : construction :=
  let version :=
    match compare version 0 1 "." with
    | Eq => ("0" ++ version)%string
    | _ => version
    end in
  let pos := Int.to_size_t (size version - 1) in
  if size version <? pos then OutOfRange
  else
    let version :=
      match compare version (Z.to_nat pos) 1 "." with
      | Eq => (version ++ "0")%string
      | _ => version
      end in
    match sscanf version (mk 0 0 0) with
    | Some v => Constructed v
    | None => Undefined
    end.

(** [operator<<]: the characters written to the stream. *)
Definition print (v : t) : string :=
  (print_unsigned (major v) ++ "." ++ print_unsigned (minor v) ++ "."
   ++ print_unsigned (patch v))%string.

(** The order in which [a] is below or equal to [b] when each field of [a]
    is below or equal to the field of [b]. *)
Definition fieldwise_le (a b : t) : Prop :=
  major a <= major b /\ minor a <= minor b /\ patch a <= patch b.

End SemanticVersion.

(** * Properties *)

(** ** The model on some inputs *)

Example stream_words_names :
  stream_words "  -a   -abbrev --c " = ["-a"; "-abbrev"; "--c"].
Proof. reflexivity. Qed.

Example extract_string_names :
  extract_string "  -a   -abbrev" = Some ("-a", "   -abbrev").
Proof. reflexivity. Qed.

Example extract_int_digits : extract_int "5x" = Some (5, "x").
Proof. reflexivity. Qed.

Example extract_int_signed : extract_int "  -12 3" = Some (-12, " 3").
Proof. reflexivity. Qed.

Example extract_int_word : extract_int "notanumber" = None.
Proof. reflexivity. Qed.

Example extract_int_sign_only : extract_int "+" = None.
Proof. reflexivity. Qed.

Example extract_int_overflow :
  extract_int "2147483648" = None
  /\ extract_int "-2147483648" = Some (-2147483648, "").
Proof. split; reflexivity. Qed.

(** A name with a comma stops a build with assertions, and is one keyword
    in a build without. *)
Example getOption_comma :
  getOption (V := IntValue) false ["-a"] "-a,-b" None false 0 = Aborted
  /\ getOption (V := IntValue) true ["-a"] "-a,-b" None false 0
     = Returned false 0 None.
Proof. split; reflexivity. Qed.

(** A short keyword is tried first against a token that a longer keyword
    of the same names equals. *)
Example getOption_short_keyword_first :
  getOption (V := IntValue) true ["-abbrev"; "7"] "-a -abbrev" (Some 0)
            false 0
  = Returned false 0 (Some 0)
  /\ getOption (V := StringValue) true ["-abbrev"; "7"] "-a -abbrev"
               (Some "") false 0
     = Returned true 0 (Some "bbrev").
Proof. split; reflexivity. Qed.

(** ** Machine integers *)

Lemma decr_incr (i : Z) : Int.in_range i -> Int.decr (Int.incr i) = i.
Proof.
  unfold Int.in_range, Int.decr, Int.incr, Int.wrap, Int.INT_MIN, Int.INT_MAX.
  intros Hi.
  destruct (Z.eq_dec i (2 ^ 31 - 1)) as [-> | Hne].
  - reflexivity.
  - rewrite (Z.mod_small (i + 1 + 2 ^ 31)) by lia.
    replace (i + 1 + 2 ^ 31 - 2 ^ 31 - 1 + 2 ^ 31) with (i + 2 ^ 31) by lia.
    rewrite Z.mod_small by lia. lia.
Qed.

(** ** Strings *)

Lemma string_compare_refl (s : string) : String.compare s s = Eq.
Proof.
  induction s as [| c s IH]; simpl; [reflexivity |].
  destruct (Ascii.compare c c) eqn:E; try assumption.
  - unfold Ascii.compare in E. rewrite N.compare_refl in E. discriminate.
  - unfold Ascii.compare in E. rewrite N.compare_refl in E. discriminate.
Qed.

Lemma string_compare_Eq (s t : string) : String.compare s t = Eq <-> s = t.
Proof.
  split; [apply String.compare_eq_iff | intros ->; apply string_compare_refl].
Qed.

Lemma substring_drop (n : nat) (s : string) :
  s = (substring 0 n s ++ drop n s)%string.
Proof.
  revert s; induction n as [| n IH]; intros [| c s]; simpl; try reflexivity.
  f_equal. apply IH.
Qed.

Lemma substring_app (a b : string) :
  substring 0 (String.length a) (a ++ b)%string = a.
Proof.
  induction a as [| c a IH]; simpl.
  - destruct b; reflexivity.
  - f_equal. exact IH.
Qed.

Lemma drop_app (a b : string) : drop (String.length a) (a ++ b)%string = b.
Proof. induction a as [| c a IH]; simpl; [reflexivity | exact IH]. Qed.

Lemma length_app (a b : string) :
  String.length (a ++ b)%string = (String.length a + String.length b)%nat.
Proof. induction a as [| c a IH]; simpl; [reflexivity | now rewrite IH]. Qed.

Lemma app_empty_r (a : string) : (a ++ "")%string = a.
Proof. induction a as [| c a IH]; simpl; [reflexivity | now rewrite IH]. Qed.

Lemma app_assoc_string (a b c : string) :
  ((a ++ b) ++ c)%string = (a ++ (b ++ c))%string.
Proof. induction a as [| x a IH]; simpl; [reflexivity | now rewrite IH]. Qed.

(** The truncated comparison is a test for a prefix. *)
Lemma compare_prefix (arg keyword : string) :
  compare arg 0 (String.length keyword) keyword = Eq
  <-> exists text, arg = (keyword ++ text)%string.
Proof.
  unfold compare. rewrite string_compare_Eq, Nat.sub_0_r. split.
  - intros H.
    exists (drop (Nat.min (String.length keyword) (String.length arg)) arg).
    rewrite <- H at 1. apply substring_drop.
  - intros [text ->]. rewrite length_app.
    rewrite Nat.min_l by lia. apply substring_app.
Qed.

Lemma erase_prefix (keyword text : string) :
  erase (keyword ++ text) 0 (String.length keyword) = text.
Proof.
  unfold erase. simpl Nat.add.
  replace (substring 0 0 (keyword ++ text)) with EmptyString
    by (now destruct (keyword ++ text)%string).
  apply drop_app.
Qed.

Lemma size_app_lt (keyword text : string) :
  size keyword < size (keyword ++ text) <-> text <> EmptyString.
Proof.
  unfold size. rewrite length_app. destruct text as [| c text]; simpl.
  - split; [lia | congruence].
  - split; [congruence | lia].
Qed.

(** ** The comparison of a keyword with the token *)

Section Matching.

Context {T : Type} {V : Value T}.

(** With a value slot, a keyword of at most two characters is compared as
    a prefix of the token. *)
Lemma skipped_short (t : T) (keyword arg : string) :
  size keyword <= 2 ->
  skipped (Some t) keyword arg = false
  <-> exists text, arg = (keyword ++ text)%string.
Proof.
  intros Hshort. unfold skipped. simpl is_null.
  replace (2 <? size keyword) with false by (symmetry; apply Z.ltb_ge; lia).
  simpl. rewrite <- compare_prefix.
  destruct (compare arg 0 (String.length keyword) keyword);
    split; congruence.
Qed.

(** A longer keyword, and every keyword of a presence flag, is compared
    with the whole token. *)
Lemma skipped_exact (pResult : option T) (keyword arg : string) :
  2 < size keyword \/ pResult = None ->
  skipped pResult keyword arg = false <-> arg = keyword.
Proof.
  intros Hexact. unfold skipped.
  assert (Hc : (2 <? size keyword) || is_null pResult = true).
  { destruct Hexact as [H | ->]; [| apply orb_true_r].
    apply Z.ltb_lt in H. now rewrite H. }
  rewrite Hc. simpl. split.
  - intros H. apply orb_false_elim in H as [H _].
    apply negb_false_iff in H. now apply String.eqb_eq.
  - intros ->. rewrite String.eqb_refl. simpl.
    assert (E : compare keyword 0 (String.length keyword) keyword = Eq).
    { apply compare_prefix. exists EmptyString. now rewrite app_empty_r. }
    now rewrite E.
Qed.

(** In either case a keyword that is not passed over is a prefix of the
    token. *)
Lemma skipped_false_prefix (pResult : option T) (keyword arg : string) :
  skipped pResult keyword arg = false ->
  exists text, arg = (keyword ++ text)%string.
Proof.
  unfold skipped. intros H. apply orb_false_elim in H as [_ H].
  apply compare_prefix.
  now destruct (compare arg 0 (String.length keyword) keyword).
Qed.

End Matching.

(** ** The overloads of [assign_string] *)

(** Neither overload changes the pointee when it returns [false]. *)
Lemma assign_string_false (T : Type) (V : Value T) :
  source_overload T V ->
  forall (t : T) (s : string) (t' : T),
    assign_string t s = (false, t') -> t' = t.
Proof.
  intros H. destruct H; simpl; intros t s t' E; congruence.
Qed.

(** ** The loop over the keywords *)

Section Loop.

Context {T : Type} {V : Value T}.
Variable NDEBUG : bool.
Variable _argv : list string.


(** The conversion of the value text always ends the call. *)
Lemma convert_returns (combinedArg : bool) (arg : string) (i : Z) (t : T)
    (fValueOptional : bool) :
  exists result i' pResult',
    convert combinedArg arg i t fValueOptional = Return result i' pResult'.
Proof.
  unfold convert. destruct (assign_string t arg) as [[|] t1].
  - now eexists _, _, _.
  - destruct (extract arg) as [[tmp rest] |]; now eexists _, _, _.
Qed.

(** A combined value never moves the cursor. *)
Lemma convert_combined_cursor (arg : string) (i : Z) (t : T)
    (fValueOptional result : bool) (i' : Z) (pResult' : option T) :
  convert true arg i t fValueOptional = Return result i' pResult' ->
  i' = i.
Proof.
  unfold convert. destruct (assign_string t arg) as [[|] t1].
  - congruence.
  - destruct (extract arg) as [[tmp rest] |]; simpl; congruence.
Qed.

(** A keyword that is not passed over ends the call. *)
Lemma process_returns (pResult : option T) (fValueOptional : bool)
    (keyword arg : string) (i : Z) :
  skipped pResult keyword arg = false ->
  exists result i' pResult',
    process _argv pResult fValueOptional keyword arg i
    = Return result i' pResult'.
Proof.
  intros Hm. unfold process. destruct pResult as [t |].
  - destruct (size keyword <? size arg); [apply convert_returns |].
    destruct (at_end _argv (Int.incr i)); [now eexists _, _, _ |].
    apply convert_returns.
  - apply skipped_exact in Hm; [| now right]. subst arg.
    rewrite Z.ltb_irrefl. now eexists _, _, _.
Qed.

(** The loop stops at the first keyword that is not passed over. *)
Lemma loop_matched (keywords : list string) (pResult : option T)
    (fValueOptional : bool) (arg keyword : string) (i : Z)
    (result : bool) (i' : Z) (pResult' : option T) :
  find (fun k => negb (skipped pResult k arg)) keywords = Some keyword ->
  process _argv pResult fValueOptional keyword arg i
  = Return result i' pResult' ->
  loop _argv keywords pResult fValueOptional arg i
  = Returned result i' pResult'.
Proof.
  induction keywords as [| k rest IH]; simpl; [discriminate |].
  unfold body. destruct (skipped pResult k arg) eqn:Hk; simpl.
  - apply IH.
  - intros [= ->] ->. reflexivity.
Qed.

Lemma loop_unmatched (keywords : list string) (pResult : option T)
    (fValueOptional : bool) (arg : string) (i : Z) :
  find (fun k => negb (skipped pResult k arg)) keywords = None ->
  loop _argv keywords pResult fValueOptional arg i = Returned false i pResult.
Proof.
  induction keywords as [| k rest IH]; simpl; [reflexivity |].
  unfold body. destruct (skipped pResult k arg) eqn:Hk; simpl.
  - apply IH.
  - discriminate.
Qed.

(** With the assertions passed and a token under the cursor, the call is
    the loop over the keywords of [names]. *)
Lemma getOption_loop (names : string) (pResult : option T)
    (fValueOptional : bool) (i : Z) (arg : string) :
  names_accepted NDEBUG names = true ->
  current_token _argv i = Some arg ->
  getOption NDEBUG _argv names pResult fValueOptional i
  = loop _argv (stream_words names) pResult fValueOptional arg i.
Proof.
  unfold names_accepted, current_token, getOption.
  intros Ha Ht. apply andb_prop in Ha as [-> ->]. simpl.
  destruct (at_end _argv i); [discriminate |]. congruence.
Qed.

Lemma getOption_matched (names : string) (pResult : option T)
    (fValueOptional : bool) (i : Z) (arg keyword : string)
    (result : bool) (i' : Z) (pResult' : option T) :
  names_accepted NDEBUG names = true ->
  current_token _argv i = Some arg ->
  matched_keyword names pResult arg = Some keyword ->
  process _argv pResult fValueOptional keyword arg i
  = Return result i' pResult' ->
  getOption NDEBUG _argv names pResult fValueOptional i
  = Returned result i' pResult'.
Proof.
  intros Ha Ht Hm Hp. rewrite (getOption_loop _ _ _ _ arg Ha Ht).
  now apply loop_matched with (keyword := keyword).
Qed.

(** *** Calls that return [false] *)

Hypothesis assign_keeps :
  forall (t : T) (s : string) (t' : T),
    assign_string t s = (false, t') -> t' = t.

Lemma convert_false (combinedArg : bool) (arg : string) (i : Z) (t : T)
    (fValueOptional : bool) (i' : Z) (pResult' : option T) :
  convert combinedArg arg i t fValueOptional = Return false i' pResult' ->
  i' = (if combinedArg then i else Int.decr i) /\ pResult' = Some t.
Proof.
  unfold convert. destruct (assign_string t arg) as [[|] t1] eqn:Ea.
  - discriminate.
  - apply assign_keeps in Ea. subst t1.
    destruct (extract arg) as [[tmp rest] |]; [discriminate |].
    intros [= _ <- <-]. now destruct combinedArg.
Qed.

Lemma process_false (pResult : option T) (fValueOptional : bool)
    (keyword arg : string) (i i' : Z) (pResult' : option T) :
  Int.in_range i ->
  process _argv pResult fValueOptional keyword arg i
  = Return false i' pResult' ->
  i' = i /\ pResult' = pResult.
Proof.
  intros Hi. unfold process. destruct pResult as [t |].
  - destruct (size keyword <? size arg).
    + intros H. now apply convert_false in H.
    + destruct (at_end _argv (Int.incr i)).
      * intros [= _ <- <-]. now rewrite decr_incr.
      * intros H. apply convert_false in H. now rewrite decr_incr in H.
  - destruct (size keyword <? size arg); discriminate.
Qed.

Lemma loop_false (keywords : list string) (pResult : option T)
    (fValueOptional : bool) (arg : string) (i i' : Z)
    (pResult' : option T) :
  Int.in_range i ->
  loop _argv keywords pResult fValueOptional arg i
  = Returned false i' pResult' ->
  i' = i /\ pResult' = pResult.
Proof.
  intros Hi. revert arg.
  induction keywords as [| k rest IH]; simpl; intros arg.
  - intros [= <- <-]. now split.
  - destruct (body _argv pResult fValueOptional k arg i)
      as [arg' | result i1 p1] eqn:Eb.
    + apply IH.
    + intros [= -> -> ->]. unfold body in Eb.
      destruct (skipped pResult k arg); [discriminate |].
      now apply process_false in Eb.
Qed.

Lemma getOption_false (names : string) (pResult : option T)
    (fValueOptional : bool) (i i' : Z) (pResult' : option T) :
  Int.in_range i ->
  getOption NDEBUG _argv names pResult fValueOptional i
  = Returned false i' pResult' ->
  i' = i /\ pResult' = pResult.
Proof.
  intros Hi. unfold getOption.
  destruct (negb _); [discriminate |].
  destruct (negb _); [discriminate |].
  destruct (at_end _argv i).
  - intros [= <- <-]. now split.
  - now apply loop_false.
Qed.

End Loop.

(** ** The keywords of a list of names *)

Lemma words_from_cur (cur iss : string) :
  cur <> EmptyString ->
  words_from cur iss
  = (cur ++ fst (read_word iss))%string
    :: words_from EmptyString (snd (read_word iss)).
Proof.
  revert cur. induction iss as [| c r IH]; intros cur Hcur; simpl.
  - rewrite app_empty_r. now destruct cur.
  - destruct (isspace c) eqn:Hc; simpl.
    + rewrite app_empty_r, Hc. now destruct cur.
    + rewrite IH by (now destruct cur).
      destruct (read_word r) as [w rest]. simpl.
      now rewrite app_assoc_string.
Qed.

Lemma stream_words_skipws (iss : string) :
  stream_words iss = stream_words (skipws iss).
Proof.
  unfold stream_words. induction iss as [| c r IH]; simpl; [reflexivity |].
  destruct (isspace c) eqn:Hc; [exact IH |]. simpl. now rewrite Hc.
Qed.

Lemma skipws_head (iss : string) (c : ascii) (r : string) :
  skipws iss = String c r -> isspace c = false.
Proof.
  induction iss as [| d s IH]; simpl; [discriminate |].
  destruct (isspace d) eqn:Hd; [exact IH |]. congruence.
Qed.

(** [stream_words] is the iteration of [iss >> keyword] until it fails. *)
Lemma stream_words_unfold (iss : string) :
  stream_words iss
  = match extract_string iss with
    | None => []
    | Some (keyword, rest) => keyword :: stream_words rest
    end.
Proof.
  rewrite stream_words_skipws. unfold extract_string.
  destruct (skipws iss) as [| c r] eqn:Es; [reflexivity |].
  apply skipws_head in Es. unfold stream_words. simpl. rewrite Es.
  rewrite words_from_cur by discriminate.
  now destruct (read_word r) as [w rest].
Qed.

Lemma words_from_app (cur a : string) (c : ascii) (b : string) :
  isspace c = true ->
  words_from cur (a ++ String c b) = words_from cur a ++ stream_words b.
Proof.
  intros Hc. revert cur. induction a as [| x a IH]; intros cur; simpl.
  - rewrite Hc. now destruct cur.
  - destruct (isspace x).
    + destruct cur; simpl; now rewrite IH.
    + apply IH.
Qed.

Lemma words_from_no_space (cur w : string) :
  no_space w = true ->
  words_from cur w
  = match (cur ++ w)%string with EmptyString => [] | s => [s] end.
Proof.
  revert cur. induction w as [| c w IH]; intros cur; simpl.
  - intros _. rewrite app_empty_r. now destruct cur.
  - intros H. apply andb_prop in H as [Hc Hw].
    apply negb_true_iff in Hc. rewrite Hc, IH by exact Hw.
    now rewrite app_assoc_string.
Qed.

Lemma stream_words_keyword (w : string) :
  is_keyword w = true -> stream_words w = [w].
Proof.
  unfold is_keyword, stream_words. intros H. apply andb_prop in H as [Hne Hw].
  rewrite words_from_no_space by exact Hw. simpl.
  destruct w; [discriminate | reflexivity].
Qed.

(** The keywords come out in the order in which they are written. *)
Lemma stream_words_concat (keywords : list string) :
  Forall (fun k => is_keyword k = true) keywords ->
  stream_words (String.concat " " keywords) = keywords.
Proof.
  induction keywords as [| k rest IH]; intros H; [reflexivity |].
  inversion H as [| ? ? Hk Hrest]; subst.
  destruct rest as [| k' rest].
  - simpl. now apply stream_words_keyword.
  - change (String.concat " " (k :: k' :: rest))
      with (k ++ String " " (String.concat " " (k' :: rest)))%string.
    unfold stream_words at 1. rewrite words_from_app by reflexivity.
    fold (stream_words k). rewrite stream_words_keyword by exact Hk.
    rewrite IH by exact Hrest. reflexivity.
Qed.

(** ** The extraction of an [int] *)

Lemma skipws_app (s e : string) :
  skipws s <> EmptyString -> skipws (s ++ e) = (skipws s ++ e)%string.
Proof.
  induction s as [| c r IH]; simpl; [congruence |].
  destruct (isspace c); [exact IH | reflexivity].
Qed.

Lemma read_sign_app (s e : string) :
  s <> EmptyString ->
  read_sign (s ++ e)
  = (fst (read_sign s), (snd (read_sign s) ++ e)%string).
Proof.
  destruct s as [| c r]; [congruence |]. intros _. simpl.
  destruct (Ascii.eqb c "-"); [reflexivity |].
  destruct (Ascii.eqb c "+"); reflexivity.
Qed.

Lemma read_digits_app (acc : Z) (s e : string) (n : Z) (rest : string) :
  read_digits acc s = (n, rest) ->
  no_leading_digit e = true ->
  read_digits acc (s ++ e) = (n, (rest ++ e)%string).
Proof.
  intros H He. revert acc H. induction s as [| c r IH]; intros acc; simpl.
  - intros [= <- <-]. destruct e as [| d e]; [reflexivity |].
    simpl in *. apply negb_true_iff in He. now rewrite He.
  - destruct (isdigit c); [apply IH |]. now intros [= <- <-].
Qed.

(** Characters that cannot continue the number do not change what is
    extracted; they stay in the stream. *)
Lemma extract_int_app (s e : string) (v : Z) (rest : string) :
  extract_int s = Some (v, rest) ->
  no_leading_digit e = true ->
  extract_int (s ++ e) = Some (v, (rest ++ e)%string).
Proof.
  unfold extract_int. intros H He.
  assert (Hs : skipws s <> EmptyString).
  { intros E. rewrite E in H. discriminate. }
  rewrite skipws_app by exact Hs. rewrite read_sign_app by exact Hs.
  destruct (read_sign (skipws s)) as [negative s1]. simpl fst; simpl snd.
  destruct s1 as [| c r]; [discriminate |].
  change (no_leading_digit (String c r ++ e))
    with (no_leading_digit (String c r)).
  destruct (negb (no_leading_digit (String c r))); [| discriminate].
  destruct (read_digits 0 (String c r)) as [n rest0] eqn:Ed.
  rewrite (read_digits_app _ _ _ _ _ Ed He).
  destruct ((Int.INT_MIN <=? (if negative then - n else n))
            && ((if negative then - n else n) <=? Int.INT_MAX));
    [| discriminate].
  now injection H as <- <-.
Qed.

(** ** The value of an option in a token of its own *)

(** C1, as the claim has it: with the names ["-a -abbrev"], an [int] slot,
    the tokens [-a] and [5] and the cursor on 0, the claim puts the cursor
    on 2 after the call.  The call returns [true] and stores 5, but it
    leaves the cursor on 1, the position of the value. *)
Lemma getOption_separate_cursor_is_not_2 :
  getOption (V := IntValue) true ["-a"; "5"] "-a -abbrev" (Some 0) false 0
  = Returned true 1 (Some 5)
  /\ getOption (V := IntValue) true ["-a"; "5"] "-a -abbrev" (Some 0) false 0
     <> Returned true 2 (Some 5).
Proof. split; [reflexivity | discriminate]. Qed.

(** C1, amended: with the names ["-a -abbrev"], an [int] slot, the tokens
    [-a] and [5] and the cursor on 0, the call returns [true], the slot
    receives 5 and the cursor is on 1, the position of the value token that
    was consumed; this holds in every build, whatever the slot held and
    whether or not the value is optional. *)
Theorem getOption_separate_value :
  forall (NDEBUG : bool) (t : Z) (fValueOptional : bool),
    getOption (V := IntValue) NDEBUG ["-a"; "5"] "-a -abbrev" (Some t)
              fValueOptional 0
    = Returned true 1 (Some 5).
Proof. intros [|] t fValueOptional; reflexivity. Qed.

(** ** A combined value that does not convert *)

(** C2, as the claim has it: a combined value that does not convert makes
    the call return [false] whatever [fValueOptional] is.  With an optional
    value the call returns [true]: the token [-ax] for the names ["-a"] and
    an [int] slot. *)
Lemma getOption_combined_unparseable_optional :
  extract_int "x" = None
  /\ getOption (V := IntValue) true ["-ax"] "-a" (Some 0) true 0
     = Returned true 0 (Some 0)
  /\ getOption (V := IntValue) true ["-ax"] "-a" (Some 0) true 0
     <> Returned false 0 (Some 0).
Proof. repeat split; try reflexivity. discriminate. Qed.

(** C2, amended: when the keyword that matches is followed in the same
    token by a value text, the slot is not a string and the text does not
    convert to the type of the slot, the call returns [fValueOptional]; the
    cursor stays on the token of the option and the slot keeps its
    content. *)
Theorem getOption_combined_unparseable :
  forall (T : Type) (ex : string -> option (T * string)) (NDEBUG : bool)
         (_argv : list string) (names : string) (t : T)
         (fValueOptional : bool) (i : Z) (keyword text : string),
    names_accepted NDEBUG names = true ->
    current_token _argv i = Some (keyword ++ text)%string ->
    text <> EmptyString ->
    matched_keyword names (Some t) (keyword ++ text)%string = Some keyword ->
    ex text = None ->
    getOption (V := GenericValue ex) NDEBUG _argv names (Some t)
              fValueOptional i
    = Returned fValueOptional i (Some t).
Proof.
  intros T ex NDEBUG _argv names t fValueOptional i keyword text
         Ha Ht Hne Hm Hex.
  apply (getOption_matched (V := GenericValue ex)) with
    (arg := (keyword ++ text)%string) (keyword := keyword); try assumption.
  unfold process. apply (size_app_lt keyword) in Hne. apply Z.ltb_lt in Hne.
  rewrite Hne, erase_prefix. unfold convert. simpl. now rewrite Hex.
Qed.

Lemma getOption_combined_unparseable_witness :
  getOption (V := GenericValue extract_int) false ["-ax"] "-a -abbrev"
            (Some 7) true 0
  = Returned true 0 (Some 7).
Proof.
  apply (getOption_combined_unparseable Z extract_int false ["-ax"]
           "-a -abbrev" 7 true 0 "-a" "x").
  - reflexivity.
  - reflexivity.
  - discriminate.
  - reflexivity.
  - reflexivity.
Defined.

(** ** Calls that return [false] *)

(** The cursor at or past the end, and no keyword for the token. *)
Lemma getOption_at_end (T : Type) (V : Value T) (NDEBUG : bool)
    (_argv : list string) (names : string) (pResult : option T)
    (fValueOptional : bool) (i : Z) :
  names_accepted NDEBUG names = true ->
  current_token _argv i = None ->
  getOption NDEBUG _argv names pResult fValueOptional i
  = Returned false i pResult.
Proof.
  unfold names_accepted, current_token, getOption. intros Ha Ht.
  apply andb_prop in Ha as [-> ->]. simpl.
  now destruct (at_end _argv i).
Qed.

Lemma getOption_unmatched (T : Type) (V : Value T) (NDEBUG : bool)
    (_argv : list string) (names : string) (pResult : option T)
    (fValueOptional : bool) (i : Z) (arg : string) :
  names_accepted NDEBUG names = true ->
  current_token _argv i = Some arg ->
  matched_keyword names pResult arg = None ->
  getOption NDEBUG _argv names pResult fValueOptional i
  = Returned false i pResult.
Proof.
  intros Ha Ht Hm. rewrite (getOption_loop NDEBUG _argv _ _ _ _ arg Ha Ht).
  now apply loop_unmatched.
Qed.

(** C3: with either overload of [assign_string], a call that returns
    [false] leaves the cursor on its value before the call and the slot
    with its content, whatever the token sequence, the cursor and the names
    are, and any number of such calls in a row leaves both as they were.
    The call does return [false] when the cursor is at or past the end of
    the sequence, and when no keyword of the names matches the token under
    the cursor. *)
Theorem getOption_failure_no_effect :
  forall (T : Type) (V : Value T) (NDEBUG : bool) (_argv : list string)
         (names : string) (pResult : option T) (fValueOptional : bool)
         (i : Z),
    source_overload T V ->
    Int.in_range i ->
    (forall (i' : Z) (pResult' : option T),
        getOption NDEBUG _argv names pResult fValueOptional i
        = Returned false i' pResult' ->
        (i' = i /\ pResult' = pResult)
        /\ forall n : nat,
            probes NDEBUG _argv n names pResult fValueOptional i
            = Some (i, pResult))
    /\ (names_accepted NDEBUG names = true ->
        current_token _argv i = None ->
        getOption NDEBUG _argv names pResult fValueOptional i
        = Returned false i pResult)
    /\ (forall arg : string,
           names_accepted NDEBUG names = true ->
           current_token _argv i = Some arg ->
           matched_keyword names pResult arg = None ->
           getOption NDEBUG _argv names pResult fValueOptional i
           = Returned false i pResult).
Proof.
  intros T V NDEBUG _argv names pResult fValueOptional i Hov Hi.
  split; [| split].
  - intros i' pResult' Hcall.
    assert (Hsame : i' = i /\ pResult' = pResult).
    { apply (getOption_false NDEBUG _argv (assign_string_false T V Hov))
        with (1 := Hi) (2 := Hcall). }
    split; [exact Hsame |].
    destruct Hsame as [-> ->].
    induction n as [| n IH]; simpl; [reflexivity |].
    rewrite Hcall. exact IH.
  - apply getOption_at_end.
  - intros arg. apply getOption_unmatched.
Qed.

Lemma getOption_failure_no_effect_witness :
  getOption (V := IntValue) false ["-b"; "3"] "-a -abbrev" (Some 0) true 0
  = Returned false 0 (Some 0)
  /\ forall n : nat,
      probes (V := IntValue) false ["-b"; "3"] n "-a -abbrev" (Some 0) true 0
      = Some (0, Some 0).
Proof.
  split; [reflexivity |].
  assert (Hin : Int.in_range 0)
    by (unfold Int.in_range, Int.INT_MIN, Int.INT_MAX; lia).
  destruct (getOption_failure_no_effect Z IntValue false ["-b"; "3"]
              "-a -abbrev" (Some 0) true 0
              (overload_generic Z extract_int) Hin) as [H _].
  apply (H 0 (Some 0)). reflexivity.
Defined.

(** ** The token under the cursor *)

(** For a cursor that is not negative, [current_token] is the lookup in the
    token sequence. *)
Lemma current_token_nth_error (_argv : list string) (i : Z) :
  0 <= i <= Int.INT_MAX ->
  current_token _argv i = nth_error _argv (Z.to_nat i).
Proof.
  unfold current_token, at_end, argv_at, Int.to_size_t, Int.INT_MAX.
  intros Hi. rewrite Z.mod_small by lia.
  destruct (Z.of_nat (List.length _argv) <=? i) eqn:E.
  - apply Z.leb_le in E. symmetry. apply nth_error_None. lia.
  - apply Z.leb_gt in E. symmetry. apply nth_error_nth'. lia.
Qed.

Lemma incr_next (i : Z) : 0 <= i < Int.INT_MAX -> Int.incr i = i + 1.
Proof.
  unfold Int.incr, Int.wrap, Int.INT_MAX. intros Hi.
  rewrite Z.mod_small by lia. lia.
Qed.

(** The token after the one under the cursor. *)
Lemma current_token_incr (_argv : list string) (i : Z) :
  0 <= i < Int.INT_MAX ->
  current_token _argv (Int.incr i) = nth_error _argv (S (Z.to_nat i)).
Proof.
  intros Hi. rewrite incr_next by exact Hi.
  rewrite current_token_nth_error by lia.
  f_equal. lia.
Qed.

(** When the cursor is on the last token, the cursor moved on by one is on
    no token. *)
Lemma last_token_has_no_next (_argv : list string) (i : Z) (arg : string) :
  Int.in_range i ->
  current_token _argv i = Some arg ->
  Z.of_nat (List.length _argv) <= i + 1 ->
  current_token _argv (Int.incr i) = None.
Proof.
  unfold Int.in_range, Int.INT_MIN, Int.INT_MAX, current_token, at_end,
    Int.to_size_t.
  intros Hi Ht Hlen.
  destruct (Z.of_nat (List.length _argv) <=? i mod 2 ^ 64) eqn:E;
    [discriminate |].
  apply Z.leb_gt in E.
  assert (Hpos : 0 <= i).
  { destruct (Z_lt_le_dec i 0) as [Hneg | Hge]; [| exact Hge].
    pose proof (Z.mod_pos_bound i (2 ^ 64) ltac:(lia)). lia. }
  rewrite Z.mod_small in E by lia.
  destruct (Z.eq_dec i (2 ^ 31 - 1)) as [-> | Hne].
  - replace (Z.of_nat (List.length _argv) <=? Int.incr (2 ^ 31 - 1) mod 2 ^ 64)
      with true; [reflexivity |].
    symmetry. apply Z.leb_le.
    change (Int.incr (2 ^ 31 - 1) mod 2 ^ 64) with (2 ^ 64 - 2 ^ 31). lia.
  - rewrite incr_next by (unfold Int.INT_MAX; lia).
    rewrite Z.mod_small by lia.
    replace (Z.of_nat (List.length _argv) <=? i + 1) with true;
      [reflexivity |].
    symmetry. apply Z.leb_le. lia.
Qed.

(** ** A keyword with the value in the same token *)

Lemma body_flag_longer_token (T : Type) (V : Value T) (_argv : list string)
    (fValueOptional : bool) (keyword arg : string) (i : Z) :
  size keyword < size arg ->
  body _argv None fValueOptional keyword arg i = Continue arg.
Proof.
  intros H. apply Z.ltb_lt in H. unfold body, process. rewrite H.
  now destruct (skipped None keyword arg).
Qed.

(** C4: let the keyword be strictly shorter than the current token.
    Without a value slot the candidate is rejected, and the loop goes on
    with the next candidate.  With a value slot and the keyword matched,
    the value text is the token without the keyword at its head, and the
    call ends with the cursor where it was.  With the names ["-a -abbrev"],
    an [int] slot and the token [-a5], the call returns [true] with 5 in
    the slot and the cursor unchanged. *)
Theorem combined_form :
  forall (T : Type) (V : Value T) (_argv : list string)
         (keyword arg : string) (fValueOptional : bool) (i : Z),
    size keyword < size arg ->
    (process _argv None fValueOptional keyword arg i = Continue arg
     /\ forall rest : list string,
         loop _argv (keyword :: rest) None fValueOptional arg i
         = loop _argv rest None fValueOptional arg i)
    /\ (forall t : T,
           skipped (Some t) keyword arg = false ->
           exists text : string,
             arg = (keyword ++ text)%string
             /\ process _argv (Some t) fValueOptional keyword arg i
                = convert true text i t fValueOptional
             /\ (forall (NDEBUG : bool) (names : string),
                    names_accepted NDEBUG names = true ->
                    current_token _argv i = Some arg ->
                    matched_keyword names (Some t) arg = Some keyword ->
                    exists (result : bool) (pResult' : option T),
                      getOption NDEBUG _argv names (Some t) fValueOptional i
                      = Returned result i pResult'))
    /\ (forall (NDEBUG : bool) (t : Z) (optional : bool),
           getOption (V := IntValue) NDEBUG ["-a5"] "-a -abbrev" (Some t)
                     optional 0
           = Returned true 0 (Some 5)).
Proof.
  intros T V _argv keyword arg fValueOptional i Hlt.
  split; [| split].
  - split.
    + unfold process. apply Z.ltb_lt in Hlt. now rewrite Hlt.
    + intros rest. simpl. now rewrite body_flag_longer_token.
  - intros t Hm. destruct (skipped_false_prefix _ _ _ Hm) as [text ->].
    exists text. split; [reflexivity |].
    assert (Hp : process _argv (Some t) fValueOptional keyword
                         (keyword ++ text) i
                 = convert true text i t fValueOptional).
    { unfold process. apply Z.ltb_lt in Hlt. now rewrite Hlt, erase_prefix. }
    split; [exact Hp |].
    intros NDEBUG names Ha Ht Hk.
    destruct (convert_returns true text i t fValueOptional)
      as (result & i' & pResult' & Hc).
    exists result, pResult'.
    pose proof (convert_combined_cursor _ _ _ _ _ _ _ Hc) as Hi. subst i'.
    apply getOption_matched with (arg := (keyword ++ text)%string)
                                 (keyword := keyword); try assumption.
    now rewrite Hp.
  - intros [|] t optional; reflexivity.
Qed.

Lemma combined_form_witness :
  process (V := IntValue) ["-a5"] None false "-a" "-a5" 0 = Continue "-a5"
  /\ exists (result : bool) (pResult' : option Z),
      getOption (V := IntValue) false ["-a5"] "-a -abbrev" (Some 0) false 0
      = Returned result 0 pResult'.
Proof.
  destruct (combined_form Z IntValue ["-a5"] "-a" "-a5" false 0)
    as [[Hflag _] [Hslot _]].
  - reflexivity.
  - split; [exact Hflag |].
    destruct (Hslot 0) as (text & _ & _ & Hcall); [reflexivity |].
    apply (Hcall false "-a -abbrev"); reflexivity.
Defined.

(** ** Which keyword matches *)

Lemma find_first {A : Type} (f : A -> bool) (pre : list A) (x : A)
    (post : list A) :
  Forall (fun a => f a = false) pre ->
  f x = true ->
  find f (pre ++ x :: post) = Some x.
Proof.
  intros Hpre Hx. induction Hpre as [| a pre Ha _ IH]; simpl.
  - now rewrite Hx.
  - now rewrite Ha.
Qed.

(** C5: with a value slot, a keyword of at most two characters matches
    exactly when the current token starts with it; a keyword of more than
    two characters, and every keyword when there is no value slot, matches
    exactly when the token is equal to it.  The keywords are tried in the
    order in which the names have them, and the first one that matches
    decides the call. *)
Theorem keyword_matching :
  (forall (T : Type) (t : T) (keyword arg : string),
      size keyword <= 2 ->
      skipped (Some t) keyword arg = false
      <-> exists text : string, arg = (keyword ++ text)%string)
  /\ (forall (T : Type) (pResult : option T) (keyword arg : string),
         2 < size keyword \/ pResult = None ->
         skipped pResult keyword arg = false <-> arg = keyword)
  /\ (forall keywords : list string,
         Forall (fun k => is_keyword k = true) keywords ->
         stream_words (String.concat " " keywords) = keywords)
  /\ (forall (T : Type) (V : Value T) (NDEBUG : bool) (_argv : list string)
             (names : string) (pre : list string) (keyword : string)
             (post : list string) (pResult : option T)
             (fValueOptional : bool) (arg : string) (i : Z),
         names_accepted NDEBUG names = true ->
         current_token _argv i = Some arg ->
         stream_words names = pre ++ keyword :: post ->
         Forall (fun k => skipped pResult k arg = true) pre ->
         skipped pResult keyword arg = false ->
         exists (result : bool) (i' : Z) (pResult' : option T),
           process _argv pResult fValueOptional keyword arg i
           = Return result i' pResult'
           /\ getOption NDEBUG _argv names pResult fValueOptional i
              = Returned result i' pResult').
Proof.
  split; [| split; [| split]].
  - intros T t keyword arg. apply skipped_short.
  - intros T pResult keyword arg. apply skipped_exact.
  - apply stream_words_concat.
  - intros T V NDEBUG _argv names pre keyword post pResult fValueOptional
           arg i Ha Ht Hw Hpre Hm.
    destruct (process_returns _argv pResult fValueOptional keyword arg i Hm)
      as (result & i' & pResult' & Hp).
    exists result, i', pResult'. split; [exact Hp |].
    apply getOption_matched with (arg := arg) (keyword := keyword);
      try assumption.
    unfold matched_keyword. rewrite Hw. apply find_first.
    + apply Forall_impl with (2 := Hpre). intros k Hk. now rewrite Hk.
    + now rewrite Hm.
Qed.

Lemma keyword_matching_witness :
  (skipped (Some 0) "-a" "-a5" = false
   <-> exists text : string, "-a5" = ("-a" ++ text)%string)
  /\ (skipped (Some 0) "-abbrev" "-abbrev5" = false <-> "-abbrev5" = "-abbrev")
  /\ stream_words (String.concat " " ["-a"; "-abbrev"]) = ["-a"; "-abbrev"]
  /\ exists (result : bool) (i' : Z) (pResult' : option Z),
      process (V := IntValue) ["--abbrev"; "5"] (Some 0) false
              "--abbrev" "--abbrev" 0
      = Return result i' pResult'
      /\ getOption (V := IntValue) false ["--abbrev"; "5"] "--a --abbrev"
                   (Some 0) false 0
         = Returned result i' pResult'.
Proof.
  destruct keyword_matching as (Hshort & Hexact & Horder & Hfirst).
  split; [| split; [| split]].
  - apply (Hshort Z 0 "-a" "-a5"). unfold size. simpl. lia.
  - apply (Hexact Z (Some 0) "-abbrev" "-abbrev5"). left.
    unfold size. simpl. lia.
  - apply (Horder ["-a"; "-abbrev"]). repeat constructor.
  - apply (Hfirst Z IntValue false ["--abbrev"; "5"] "--a --abbrev" ["--a"]
             "--abbrev" [] (Some 0) false "--abbrev" 0).
    + reflexivity.
    + reflexivity.
    + reflexivity.
    + repeat constructor.
    + reflexivity.
Defined.

(** ** A keyword with the value in the next token *)

(** What the call does once the keyword that matches is the whole token and
    there is a value slot. *)
Lemma process_separate (T : Type) (V : Value T) (_argv : list string)
    (t : T) (fValueOptional : bool) (keyword : string) (i : Z) :
  process _argv (Some t) fValueOptional keyword keyword i
  = match current_token _argv (Int.incr i) with
    | None => Return fValueOptional (Int.decr (Int.incr i)) (Some t)
    | Some next => convert false next (Int.incr i) t fValueOptional
    end.
Proof.
  unfold process, current_token. rewrite Z.ltb_irrefl.
  now destruct (at_end _argv (Int.incr i)).
Qed.

(** C6: when the keyword that matches is the whole current token, there is
    a value slot, and the cursor moved on by one is on no token (as it is
    when the current token is the last one, [last_token_has_no_next]), the
    call returns [fValueOptional] with the cursor back on the token of the
    option and the slot as it was. *)
Theorem dangling_value :
  forall (T : Type) (V : Value T) (NDEBUG : bool) (_argv : list string)
         (names : string) (t : T) (fValueOptional : bool) (i : Z)
         (keyword : string),
    names_accepted NDEBUG names = true ->
    Int.in_range i ->
    current_token _argv i = Some keyword ->
    matched_keyword names (Some t) keyword = Some keyword ->
    current_token _argv (Int.incr i) = None ->
    getOption NDEBUG _argv names (Some t) fValueOptional i
    = Returned fValueOptional i (Some t).
Proof.
  intros T V NDEBUG _argv names t fValueOptional i keyword
         Ha Hi Ht Hm Hnext.
  apply getOption_matched with (arg := keyword) (keyword := keyword);
    try assumption.
  rewrite process_separate, Hnext. now rewrite decr_incr.
Qed.

(** The names ["-a"], an [int] slot, the single token [-a] and an optional
    value. *)
Lemma dangling_value_witness :
  getOption (V := IntValue) false ["-a"] "-a" (Some 7) true 0
  = Returned true 0 (Some 7).
Proof.
  apply (dangling_value Z IntValue false ["-a"] "-a" 7 true 0 "-a").
  - reflexivity.
  - unfold Int.in_range, Int.INT_MIN, Int.INT_MAX. lia.
  - reflexivity.
  - reflexivity.
  - reflexivity.
Defined.

(** C7: when the keyword that matches is the whole current token, the next
    token exists and does not convert to the type of the slot, which is not
    a string, the call returns [fValueOptional] with the cursor back on the
    token of the option and the slot as it was.  The next token is the one
    under the cursor moved on by one ([current_token_incr]). *)
Theorem separate_unparseable :
  forall (T : Type) (ex : string -> option (T * string)) (NDEBUG : bool)
         (_argv : list string) (names : string) (t : T)
         (fValueOptional : bool) (i : Z) (keyword next : string),
    names_accepted NDEBUG names = true ->
    Int.in_range i ->
    current_token _argv i = Some keyword ->
    matched_keyword names (Some t) keyword = Some keyword ->
    current_token _argv (Int.incr i) = Some next ->
    ex next = None ->
    getOption (V := GenericValue ex) NDEBUG _argv names (Some t)
              fValueOptional i
    = Returned fValueOptional i (Some t).
Proof.
  intros T ex NDEBUG _argv names t fValueOptional i keyword next
         Ha Hi Ht Hm Hnext Hex.
  apply (getOption_matched (V := GenericValue ex)) with
    (arg := keyword) (keyword := keyword); try assumption.
  rewrite process_separate, Hnext. unfold convert. simpl.
  now rewrite Hex, decr_incr.
Qed.

(** The names ["-a"], an [int] slot, the tokens [-a] and [notanumber] and a
    mandatory value. *)
Lemma separate_unparseable_witness :
  getOption (V := GenericValue extract_int) false ["-a"; "notanumber"] "-a"
            (Some 7) false 0
  = Returned false 0 (Some 7).
Proof.
  apply (separate_unparseable Z extract_int false ["-a"; "notanumber"] "-a"
           7 false 0 "-a" "notanumber").
  - reflexivity.
  - unfold Int.in_range, Int.INT_MIN, Int.INT_MAX. lia.
  - reflexivity.
  - reflexivity.
  - reflexivity.
  - reflexivity.
Defined.

(** ** Presence flags *)

Lemma matched_keyword_flag (T : Type) (keywords : list string)
    (arg : string) :
  In arg keywords ->
  find (fun k => negb (skipped (@None T) k arg)) keywords = Some arg.
Proof.
  induction keywords as [| k rest IH]; simpl; [tauto |].
  intros Hin. destruct (skipped (@None T) k arg) eqn:Hk; simpl.
  - destruct Hin as [-> | Hin]; [| now apply IH].
    assert (H : skipped (@None T) arg arg = false)
      by (apply skipped_exact; [now right | reflexivity]).
    congruence.
  - apply skipped_exact in Hk; [| now right]. now subst k.
Qed.

(** C8: without a value slot, when the current token is equal to one of the
    keywords, the call returns [true] and leaves the cursor on the token of
    the flag, so that a further call with the same names finds the same
    token again. *)
Theorem presence_flag :
  forall (T : Type) (V : Value T) (NDEBUG : bool) (_argv : list string)
         (names : string) (fValueOptional : bool) (i : Z) (arg : string),
    names_accepted NDEBUG names = true ->
    current_token _argv i = Some arg ->
    In arg (stream_words names) ->
    getOption NDEBUG _argv names None fValueOptional i
    = Returned true i None
    /\ forall n : nat,
        probes NDEBUG _argv n names None fValueOptional i = Some (i, None).
Proof.
  intros T V NDEBUG _argv names fValueOptional i arg Ha Ht Hin.
  assert (Hcall : getOption NDEBUG _argv names None fValueOptional i
                  = Returned true i None).
  { apply getOption_matched with (arg := arg) (keyword := arg);
      try assumption.
    - now apply matched_keyword_flag.
    - unfold process. now rewrite Z.ltb_irrefl. }
  split; [exact Hcall |].
  induction n as [| n IH]; simpl; [reflexivity |].
  now rewrite Hcall.
Qed.

(** The names ["-a"], no value slot, the token [-a]. *)
Lemma presence_flag_witness :
  getOption (V := IntValue) false ["-a"; "-b"] "-a" None false 0
  = Returned true 0 None
  /\ forall n : nat,
      probes (V := IntValue) false ["-a"; "-b"] n "-a" None false 0
      = Some (0, None).
Proof.
  apply (presence_flag Z IntValue false ["-a"; "-b"] "-a" false 0 "-a").
  - reflexivity.
  - reflexivity.
  - simpl. left. reflexivity.
Defined.

(** ** Characters after the value *)

(** C10: for a slot that is not a string, a value text from whose head a
    value of the type of the slot is extracted is accepted, whatever is
    left of the text after it: the value goes to the slot and the call
    returns [true], in the combined and in the separate form.  For an
    [int], characters that do not start with a digit can be added to such
    a text without changing the value that is extracted; the token [-a5x],
    and the tokens [-a] and [5x], store 5. *)
Theorem trailing_characters_discarded :
  (forall (T : Type) (ex : string -> option (T * string)) (NDEBUG : bool)
          (_argv : list string) (names : string) (t : T)
          (fValueOptional : bool) (i : Z) (keyword text rest : string)
          (v : T),
      names_accepted NDEBUG names = true ->
      ex text = Some (v, rest) ->
      (current_token _argv i = Some (keyword ++ text)%string ->
       text <> EmptyString ->
       matched_keyword names (Some t) (keyword ++ text)%string
       = Some keyword ->
       getOption (V := GenericValue ex) NDEBUG _argv names (Some t)
                 fValueOptional i
       = Returned true i (Some v))
      /\ (current_token _argv i = Some keyword ->
          matched_keyword names (Some t) keyword = Some keyword ->
          current_token _argv (Int.incr i) = Some text ->
          getOption (V := GenericValue ex) NDEBUG _argv names (Some t)
                    fValueOptional i
          = Returned true (Int.incr i) (Some v)))
  /\ (forall (s e : string) (v : Z) (rest : string),
         extract_int s = Some (v, rest) ->
         no_leading_digit e = true ->
         extract_int (s ++ e) = Some (v, (rest ++ e)%string))
  /\ (forall (NDEBUG : bool) (t : Z) (fValueOptional : bool),
         getOption (V := IntValue) NDEBUG ["-a5x"] "-a" (Some t)
                   fValueOptional 0
         = Returned true 0 (Some 5)
         /\ getOption (V := IntValue) NDEBUG ["-a"; "5x"] "-a" (Some t)
                      fValueOptional 0
            = Returned true 1 (Some 5)).
Proof.
  split; [| split].
  - intros T ex NDEBUG _argv names t fValueOptional i keyword text rest v
           Ha Hex.
    split.
    + intros Ht Hne Hm.
      apply (getOption_matched (V := GenericValue ex)) with
        (arg := (keyword ++ text)%string) (keyword := keyword);
        try assumption.
      unfold process. apply (size_app_lt keyword) in Hne.
      apply Z.ltb_lt in Hne. rewrite Hne, erase_prefix.
      unfold convert. simpl. now rewrite Hex.
    + intros Ht Hm Hnext.
      apply (getOption_matched (V := GenericValue ex)) with
        (arg := keyword) (keyword := keyword); try assumption.
      rewrite process_separate, Hnext. unfold convert. simpl.
      now rewrite Hex.
  - apply extract_int_app.
  - intros [|] t fValueOptional; split; reflexivity.
Qed.

Lemma trailing_characters_discarded_witness :
  getOption (V := GenericValue extract_int) false ["-o"; "-a12abc"]
            "-a -all" (Some 0) false 1
  = Returned true 1 (Some 12)
  /\ getOption (V := GenericValue extract_int) false ["-a"; "12abc"]
               "-a -all" (Some 0) false 0
     = Returned true (Int.incr 0) (Some 12)
  /\ extract_int ("12" ++ "abc") = Some (12, ("" ++ "abc")%string).
Proof.
  destruct trailing_characters_discarded as (Hcall & Hint & _).
  split; [| split].
  - apply (Hcall Z extract_int false ["-o"; "-a12abc"] "-a -all" 0 false 1
             "-a" "12abc" "abc" 12).
    + reflexivity.
    + reflexivity.
    + reflexivity.
    + discriminate.
    + reflexivity.
  - apply (Hcall Z extract_int false ["-a"; "12abc"] "-a -all" 0 false 0
             "-a" "12abc" "abc" 12).
    + reflexivity.
    + reflexivity.
    + reflexivity.
    + reflexivity.
    + reflexivity.
  - apply (Hint "12" "abc" 12 ""); reflexivity.
Defined.

(** ** SemanticVersion *)

(** Every version that is below another one in the lexicographic order is
    below it for [operator<], and [operator<=] holds only between versions
    that are in the lexicographic order. *)
Lemma operator_lt_complete (a b : SemanticVersion.t) :
  SemanticVersion.lex_lt a b = true -> SemanticVersion.operator_lt a b = true.
Proof.
  unfold SemanticVersion.lex_lt, SemanticVersion.operator_lt.
  destruct a as [a1 a2 a3], b as [b1 b2 b3]; simpl.
  destruct (a1 <? b1), (a2 <? b2), (a3 <? b3), (a1 =? b1), (a2 =? b2);
    simpl; congruence.
Qed.

Lemma operator_le_sound (a b : SemanticVersion.t) :
  SemanticVersion.operator_le a b = true -> SemanticVersion.lex_le a b = true.
Proof.
  unfold SemanticVersion.lex_le, SemanticVersion.lex_lt,
    SemanticVersion.operator_le.
  destruct a as [a1 a2 a3], b as [b1 b2 b3]; simpl.
  destruct (a1 >? b1) eqn:E1; [discriminate |].
  destruct (a2 >? b2) eqn:E2; [discriminate |].
  destruct (a3 >? b3) eqn:E3; [discriminate |].
  intros _. rewrite Z.gtb_ltb in E1, E2, E3.
  apply Z.ltb_ge in E1, E2, E3.
  destruct (a1 <? b1) eqn:L1; [reflexivity |]. apply Z.ltb_ge in L1.
  assert (H1 : a1 = b1) by lia. apply Z.eqb_eq in H1 as E. rewrite E. simpl.
  destruct (a2 <? b2) eqn:L2; [reflexivity |]. apply Z.ltb_ge in L2.
  assert (H2 : a2 = b2) by lia. apply Z.eqb_eq in H2 as E'. rewrite E'. simpl.
  destruct (a3 <? b3) eqn:L3; [reflexivity |]. apply Z.ltb_ge in L3.
  assert (H3 : a3 = b3) by lia. apply Z.eqb_eq in H3 as E''. now rewrite E''.
Qed.

(** C9, where the code departs from it: 2.0.0 is not below 1.1.0 in the
    lexicographic order, and [operator<] says that it is; 1.0.1 is below
    1.1.0, and [operator<=] says that it is not, while [operator<] of the
    same two versions says that it is. *)
Theorem SemanticVersion_order_not_lexicographic :
  SemanticVersion.valid (SemanticVersion.mk 2 0 0)
  /\ SemanticVersion.valid (SemanticVersion.mk 1 1 0)
  /\ SemanticVersion.valid (SemanticVersion.mk 1 0 1)
  /\ SemanticVersion.operator_lt (SemanticVersion.mk 2 0 0)
                                 (SemanticVersion.mk 1 1 0) = true
  /\ SemanticVersion.lex_lt (SemanticVersion.mk 2 0 0)
                            (SemanticVersion.mk 1 1 0) = false
  /\ SemanticVersion.operator_le (SemanticVersion.mk 1 0 1)
                                 (SemanticVersion.mk 1 1 0) = false
  /\ SemanticVersion.lex_le (SemanticVersion.mk 1 0 1)
                            (SemanticVersion.mk 1 1 0) = true
  /\ SemanticVersion.operator_lt (SemanticVersion.mk 1 0 1)
                                 (SemanticVersion.mk 1 1 0) = true.
Proof.
  unfold SemanticVersion.valid, SemanticVersion.UINT_MAX. simpl.
  repeat split; try reflexivity; lia.
Qed.

(** * Further properties of the header *)

(** ** When a call aborts *)

Lemma strchr_found (s : string) (c : ascii) :
  is_null (strchr s c) = false <-> In c (list_ascii_of_string s).
Proof.
  induction s as [| d r IH]; simpl.
  - split; [discriminate | tauto].
  - destruct (Ascii.eqb_spec d c) as [-> | Hne]; simpl.
    + split; [now left | reflexivity].
    + rewrite IH. split; [now right | now intros [H | H]].
Qed.

Lemma names_accepted_chars (NDEBUG : bool) (names : string) :
  names_accepted NDEBUG names = false
  <-> NDEBUG = false
      /\ (In ","%char (list_ascii_of_string names)
          \/ In ";"%char (list_ascii_of_string names)).
Proof.
  unfold names_accepted, assert. destruct NDEBUG; simpl.
  - split; [discriminate | now intros [H _]].
  - rewrite andb_false_iff, !strchr_found. tauto.
Qed.

Lemma loop_returns (T : Type) (V : Value T) (_argv : list string)
    (keywords : list string) (pResult : option T) (fValueOptional : bool)
    (arg : string) (i : Z) :
  loop _argv keywords pResult fValueOptional arg i <> Aborted.
Proof.
  revert arg. induction keywords as [| k rest IH]; simpl; intros arg.
  - discriminate.
  - destruct (body _argv pResult fValueOptional k arg i); [apply IH |].
    discriminate.
Qed.

Lemma getOption_Aborted (T : Type) (V : Value T) (NDEBUG : bool)
    (_argv : list string) (names : string) (pResult : option T)
    (fValueOptional : bool) (i : Z) :
  getOption NDEBUG _argv names pResult fValueOptional i = Aborted
  <-> names_accepted NDEBUG names = false.
Proof.
  unfold getOption, names_accepted.
  destruct (assert NDEBUG (is_null (strchr names ","%char))); simpl;
    [| tauto].
  destruct (assert NDEBUG (is_null (strchr names ";"%char))); simpl;
    [| tauto].
  split; [| discriminate].
  destruct (at_end _argv i); [discriminate |].
  intros H. now apply loop_returns in H.
Qed.

(** X1: A call ends in a failed assertion exactly when the build has
    assertions and the names hold a comma or a semicolon; every other call
    returns. *)
Theorem getOption_aborts_iff :
  forall (T : Type) (V : Value T) (NDEBUG : bool) (_argv : list string)
         (names : string) (pResult : option T) (fValueOptional : bool)
         (i : Z),
    getOption NDEBUG _argv names pResult fValueOptional i = Aborted
    <-> NDEBUG = false
        /\ (In ","%char (list_ascii_of_string names)
            \/ In ";"%char (list_ascii_of_string names)).
Proof.
  intros. rewrite getOption_Aborted. apply names_accepted_chars.
Qed.

(** ** Where a call leaves the cursor *)





Lemma getOption_aborts_iff_witness :
  getOption (V := IntValue) false ["-a"] "-a;-b" None false 0 = Aborted.
Proof.
  apply (getOption_aborts_iff Z IntValue false ["-a"] "-a;-b" None false 0).
  split; [reflexivity |]. right. simpl. tauto.
Defined.

(** ** The keywords that the loop tries *)

Lemma no_space_app (a b : string) :
  no_space (a ++ b) = no_space a && no_space b.
Proof.
  induction a as [| c a IH]; simpl; [reflexivity |].
  now rewrite IH, andb_assoc.
Qed.

Lemma words_from_keywords (cur iss : string) :
  no_space cur = true ->
  Forall (fun k => is_keyword k = true) (words_from cur iss).
Proof.
  revert cur. induction iss as [| c r IH]; intros cur Hcur; simpl.
  - destruct cur as [| d cur]; constructor; [| constructor].
    unfold is_keyword. now rewrite Hcur.
  - destruct (isspace c) eqn:Hc.
    + destruct cur as [| d cur]; [now apply IH |].
      constructor; [| now apply IH].
      unfold is_keyword. now rewrite Hcur.
    + apply IH. rewrite no_space_app, Hcur. simpl. now rewrite Hc.
Qed.

(** X3: Every keyword that the loop of [getOption] tries, and every word that
    [split] reads, is a string without white space that is not empty. *)
Theorem stream_words_are_keywords :
  forall names : string,
    Forall (fun k => is_keyword k = true) (stream_words names).
Proof. intros names. now apply words_from_keywords. Qed.

Lemma stream_words_all_space (names : string) :
  all_space names = true -> stream_words names = [].
Proof.
  unfold stream_words. induction names as [| c r IH]; simpl; [reflexivity |].
  intros H. apply andb_prop in H as [Hc Hr]. rewrite Hc. now apply IH.
Qed.

Lemma all_space_no_char (names : string) (c : ascii) :
  all_space names = true -> isspace c = false -> strchr names c = None.
Proof.
  intros Hs Hc. induction names as [| d r IH]; simpl; [reflexivity |].
  simpl in Hs. apply andb_prop in Hs as [Hd Hr].
  destruct (Ascii.eqb_spec d c) as [-> | _]; [congruence | now apply IH].
Qed.

(** X4: With names that are empty or hold white space only, every call returns
    [false] and changes nothing, in every build. *)
Theorem getOption_blank_names :
  forall (T : Type) (V : Value T) (NDEBUG : bool) (_argv : list string)
         (names : string) (pResult : option T) (fValueOptional : bool)
         (i : Z),
    all_space names = true ->
    getOption NDEBUG _argv names pResult fValueOptional i
    = Returned false i pResult.
Proof.
  intros T V NDEBUG _argv names pResult fValueOptional i Hs.
  unfold getOption, assert.
  rewrite (all_space_no_char names ","%char Hs) by reflexivity.
  rewrite (all_space_no_char names ";"%char Hs) by reflexivity.
  rewrite orb_true_r. simpl.
  destruct (at_end _argv i); [reflexivity |].
  now rewrite stream_words_all_space.
Qed.

Lemma getOption_blank_names_witness :
  getOption (V := IntValue) false ["-a"; "5"] "  " (Some 0) true 0
  = Returned false 0 (Some 0).
Proof.
  apply (getOption_blank_names Z IntValue false ["-a"; "5"] "  " (Some 0)
           true 0).
  reflexivity.
Defined.

(** ** Presence flags *)

(** X5: Without a value slot, a call on a token returns [true] exactly when
    the token is one of the keywords; the cursor stays, and such a token is
    not empty and holds no white space. *)
Theorem getOption_flag_iff :
  forall (T : Type) (V : Value T) (NDEBUG : bool) (_argv : list string)
         (names : string) (fValueOptional : bool) (i : Z) (arg : string),
    names_accepted NDEBUG names = true ->
    current_token _argv i = Some arg ->
    exists result : bool,
      getOption NDEBUG _argv names None fValueOptional i
      = Returned result i None
      /\ (result = true <-> In arg (stream_words names))
      /\ (result = true -> is_keyword arg = true).
Proof.
  intros T V NDEBUG _argv names fValueOptional i arg Ha Ht.
  destruct (in_dec string_dec arg (stream_words names)) as [Hin | Hout].
  - exists true. split; [| split].
    + apply getOption_matched with (arg := arg) (keyword := arg);
        try assumption.
      * now apply matched_keyword_flag.
      * unfold process. now rewrite Z.ltb_irrefl.
    + tauto.
    + intros _.
      pose proof (words_from_keywords EmptyString names eq_refl) as Hk.
      fold (stream_words names) in Hk.
      rewrite Forall_forall in Hk. now apply Hk.
  - exists false. split; [| split].
    + apply getOption_unmatched with (arg := arg); try assumption.
      unfold matched_keyword.
      destruct (find _ (stream_words names)) as [k |] eqn:Ef;
        [| reflexivity].
      apply find_some in Ef as [Hin Hk]. apply negb_true_iff in Hk.
      apply skipped_exact in Hk; [| now right]. now subst k.
    + split; [discriminate | tauto].
    + discriminate.
Qed.

Lemma getOption_flag_iff_witness :
  exists result : bool,
    getOption (V := IntValue) false ["--help"] "-h --help" None false 0
    = Returned result 0 None
    /\ (result = true <-> In "--help" (stream_words "-h --help"))
    /\ (result = true -> is_keyword "--help" = true).
Proof.
  apply (getOption_flag_iff Z IntValue false ["--help"] "-h --help" false 0
           "--help"); reflexivity.
Defined.

(** ** Optional and mandatory values *)

Lemma getOption_Returned_accepted (T : Type) (V : Value T) (NDEBUG : bool)
    (_argv : list string) (names : string) (pResult : option T)
    (fValueOptional : bool) (i : Z) (result : bool) (i' : Z)
    (pResult' : option T) :
  getOption NDEBUG _argv names pResult fValueOptional i
  = Returned result i' pResult' ->
  names_accepted NDEBUG names = true.
Proof.
  intros H. destruct (names_accepted NDEBUG names) eqn:E; [reflexivity |].
  apply (getOption_Aborted T V NDEBUG _argv names pResult fValueOptional i)
    in E. congruence.
Qed.

Lemma process_optional (T : Type) (V : Value T) (_argv : list string)
    (t : T) (keyword arg : string) (i : Z) (result : bool) (i' : Z)
    (pResult' : option T) :
  process _argv (Some t) true keyword arg i = Return result i' pResult' ->
  result = true.
Proof.
  unfold process, convert.
  destruct (size keyword <? size arg).
  - destruct (assign_string t _) as [[|] t1]; [congruence |].
    destruct (extract _) as [[tmp rest] |]; congruence.
  - destruct (at_end _argv (Int.incr i)); [congruence |].
    destruct (assign_string t _) as [[|] t1]; [congruence |].
    destruct (extract _) as [[tmp rest] |]; congruence.
Qed.

(** X6: With a value slot and an optional value, a call on a token returns
    [true] exactly when one of the keywords matches the token, whether or
    not a value is found. *)
Theorem getOption_optional_value :
  forall (T : Type) (V : Value T) (NDEBUG : bool) (_argv : list string)
         (names : string) (t : T) (i : Z) (arg : string),
    names_accepted NDEBUG names = true ->
    current_token _argv i = Some arg ->
    exists (result : bool) (i' : Z) (pResult' : option T),
      getOption NDEBUG _argv names (Some t) true i
      = Returned result i' pResult'
      /\ (result = true <-> matched_keyword names (Some t) arg <> None).
Proof.
  intros T V NDEBUG _argv names t i arg Ha Ht.
  destruct (matched_keyword names (Some t) arg) as [k |] eqn:Em.
  - pose proof Em as Ek. unfold matched_keyword in Ek.
    apply find_some in Ek as [_ Hk]. apply negb_true_iff in Hk.
    destruct (process_returns _argv (Some t) true k arg i Hk)
      as (result & i' & pResult' & Hp).
    exists result, i', pResult'. split.
    + now apply getOption_matched with (arg := arg) (keyword := k).
    + apply process_optional in Hp. subst result.
      split; [discriminate | reflexivity].
  - exists false, i, (Some t). split.
    + now apply getOption_unmatched with (arg := arg).
    + split; [discriminate | tauto].
Qed.

Lemma getOption_optional_value_witness :
  exists (result : bool) (i' : Z) (pResult' : option Z),
    getOption (V := IntValue) false ["-v"; "file"] "-v --verbose" (Some 0)
              true 0
    = Returned result i' pResult'
    /\ (result = true
        <-> matched_keyword "-v --verbose" (Some 0) "-v" <> None).
Proof.
  apply (getOption_optional_value Z IntValue false ["-v"; "file"]
           "-v --verbose" 0 0 "-v"); reflexivity.
Defined.

(** X7: With a mandatory value and a slot that is not a string, a call that
    returns [true] has found a keyword that matches and has stored a value
    that was extracted either from the rest of the token, with the cursor
    unchanged, or from the next token, with the cursor on it. *)
Theorem getOption_value_found :
  forall (T : Type) (ex : string -> option (T * string)) (NDEBUG : bool)
         (_argv : list string) (names : string) (t : T) (i : Z)
         (arg : string) (i' : Z) (pResult' : option T),
    current_token _argv i = Some arg ->
    getOption (V := GenericValue ex) NDEBUG _argv names (Some t) false i
    = Returned true i' pResult' ->
    exists (keyword text : string) (v : T) (rest : string),
      matched_keyword names (Some t) arg = Some keyword
      /\ ex text = Some (v, rest)
      /\ pResult' = Some v
      /\ ((arg = (keyword ++ text)%string /\ text <> EmptyString /\ i' = i)
          \/ (arg = keyword /\ current_token _argv (Int.incr i) = Some text
              /\ i' = Int.incr i)).
Proof.
  intros T ex NDEBUG _argv names t i arg i' pResult' Ht Hcall.
  pose proof (getOption_Returned_accepted _ _ _ _ _ _ _ _ _ _ _ Hcall) as Ha.
  destruct (matched_keyword names (Some t) arg) as [k |] eqn:Em.
  2:{ rewrite (getOption_unmatched T (GenericValue ex) NDEBUG _argv names
                 (Some t) false i arg Ha Ht Em) in Hcall. discriminate. }
  pose proof Em as Ek. unfold matched_keyword in Ek.
  apply find_some in Ek as [_ Hk]. apply negb_true_iff in Hk.
  destruct (process_returns (V := GenericValue ex) _argv (Some t) false k
              arg i Hk) as (r & i1 & p1 & Hp).
  rewrite (getOption_matched (V := GenericValue ex) NDEBUG _argv names
             (Some t) false i arg k r i1 p1 Ha Ht Em Hp) in Hcall.
  injection Hcall as -> -> ->.
  destruct (skipped_false_prefix _ _ _ Hk) as [text Harg].
  unfold process in Hp. destruct (size k <? size arg) eqn:El.
  - subst arg. rewrite erase_prefix in Hp. unfold convert in Hp.
    simpl in Hp. destruct (ex text) as [[v rest] |] eqn:Ex;
      [| discriminate].
    injection Hp as <- <-.
    exists k, text, v, rest. repeat split; try assumption.
    left. repeat split. apply Z.ltb_lt in El. now apply size_app_lt in El.
  - assert (Htext : text = EmptyString).
    { apply Z.ltb_ge in El. subst arg.
      destruct text as [| c text]; [reflexivity |].
      assert (size k < size (k ++ String c text))
        by (apply size_app_lt; discriminate).
      lia. }
    subst text. rewrite app_empty_r in Harg. subst arg.
    destruct (at_end _argv (Int.incr i)) eqn:Ee; [discriminate |].
    unfold convert in Hp. simpl in Hp.
    destruct (ex (argv_at _argv (Int.incr i))) as [[v rest] |] eqn:Ex;
      [| discriminate].
    injection Hp as <- <-.
    exists k, (argv_at _argv (Int.incr i)), v, rest.
    repeat split; try assumption.
    right. repeat split. unfold current_token. now rewrite Ee.
Qed.

Lemma getOption_value_found_witness :
  exists (keyword text : string) (v : Z) (rest : string),
    matched_keyword "-n --number" (Some 0) "-n42" = Some keyword
    /\ extract_int text = Some (v, rest)
    /\ Some 42 = Some v
    /\ (("-n42" = (keyword ++ text)%string /\ text <> EmptyString /\ 0 = 0)
        \/ ("-n42" = keyword
            /\ current_token ["-n42"] (Int.incr 0) = Some text
            /\ 0 = Int.incr 0)).
Proof.
  apply (getOption_value_found Z extract_int false ["-n42"] "-n --number" 0
           0 "-n42" 0 (Some 42)); reflexivity.
Defined.

(** ** String values *)

(** X8: With a slot for a string, a keyword that matches always gets a value
    when there is one: the rest of the token, or else the next token, is
    stored as it is and the call returns [true], whatever the text is. *)
Theorem getOption_string_slot :
  forall (NDEBUG : bool) (_argv : list string) (names : string)
         (t : string) (fValueOptional : bool) (i : Z)
         (keyword arg : string),
    names_accepted NDEBUG names = true ->
    current_token _argv i = Some arg ->
    matched_keyword names (Some t) arg = Some keyword ->
    exists text : string,
      arg = (keyword ++ text)%string
      /\ (text <> EmptyString ->
          getOption (V := StringValue) NDEBUG _argv names (Some t)
                    fValueOptional i
          = Returned true i (Some text))
      /\ (text = EmptyString ->
          forall next : string,
            current_token _argv (Int.incr i) = Some next ->
            getOption (V := StringValue) NDEBUG _argv names (Some t)
                      fValueOptional i
            = Returned true (Int.incr i) (Some next)).
Proof.
  intros NDEBUG _argv names t fValueOptional i keyword arg Ha Ht Hm.
  pose proof Hm as Hk. unfold matched_keyword in Hk.
  apply find_some in Hk as [_ Hk]. apply negb_true_iff in Hk.
  destruct (skipped_false_prefix _ _ _ Hk) as [text ->].
  exists text. split; [reflexivity |]. split.
  - intros Hne. apply (size_app_lt keyword) in Hne. apply Z.ltb_lt in Hne.
    apply (getOption_matched (V := StringValue)) with
      (arg := (keyword ++ text)%string) (keyword := keyword);
      try assumption.
    unfold process. now rewrite Hne, erase_prefix.
  - intros -> next Hnext. rewrite app_empty_r in *.
    apply (getOption_matched (V := StringValue)) with
      (arg := keyword) (keyword := keyword); try assumption.
    now rewrite process_separate, Hnext.
Qed.

Lemma getOption_string_slot_witness :
  exists text : string,
    "-o" = ("-o" ++ text)%string
    /\ (text <> EmptyString ->
        getOption (V := StringValue) false ["-o"; "out file.txt"]
                  "-o --output" (Some "") false 0
        = Returned true 0 (Some text))
    /\ (text = EmptyString ->
        forall next : string,
          current_token ["-o"; "out file.txt"] (Int.incr 0) = Some next ->
          getOption (V := StringValue) false ["-o"; "out file.txt"]
                    "-o --output" (Some "") false 0
          = Returned true (Int.incr 0) (Some next)).
Proof.
  apply (getOption_string_slot false ["-o"; "out file.txt"] "-o --output"
           "" false 0 "-o" "-o"); reflexivity.
Defined.

(** ** split *)

Lemma skipws_length (s : string) :
  (String.length (skipws s) <= String.length s)%nat.
Proof.
  induction s as [| c r IH]; simpl; [lia |].
  destruct (isspace c); simpl; lia.
Qed.

Lemma read_word_length (s : string) :
  (String.length (snd (read_word s)) <= String.length s)%nat.
Proof.
  induction s as [| c r IH]; simpl; [lia |].
  destruct (isspace c); simpl; [lia |].
  destruct (read_word r) as [w rest]. simpl in *. lia.
Qed.

(** An extraction that succeeds takes at least one character. *)
Lemma extract_string_shorter (iss w rest : string) :
  extract_string iss = Some (w, rest) ->
  (String.length rest < String.length iss)%nat.
Proof.
  unfold extract_string. pose proof (skipws_length iss) as Hs.
  destruct (skipws iss) as [| c r] eqn:Es; [discriminate |].
  apply skipws_head in Es. simpl. rewrite Es.
  pose proof (read_word_length r) as Hr.
  destruct (read_word r) as [w' rest']. intros [= _ <-].
  simpl in *. lia.
Qed.

Lemma last_cons {A : Type} (a : A) (l : list A) (d : A) :
  last (a :: l) d = last l a.
Proof.
  revert a d. induction l as [| b l IH]; intros a d; [reflexivity |].
  change (last (a :: b :: l) d) with (last (b :: l) d).
  now rewrite (IH b d), (IH b a).
Qed.

Lemma split_loop_enough (fuel : nat) (iss buf : string)
    (words : list string) :
  (String.length iss < fuel)%nat ->
  split_loop fuel iss buf words
  = Some (words ++ stream_words iss ++ [last (stream_words iss) buf]).
Proof.
  revert iss buf words. induction fuel as [| fuel IH];
    intros iss buf words Hlen; [lia |].
  simpl. rewrite (stream_words_unfold iss).
  destruct (extract_string iss) as [[w rest] |] eqn:Ex.
  - apply extract_string_shorter in Ex.
    rewrite IH by lia. rewrite last_cons.
    now rewrite <- app_assoc.
  - reflexivity.
Qed.

(** X9: [split] always returns.  It appends to [words] the words of [str] in
    their order, and then one entry more: the last word again, or the empty
    string when [str] holds no word. *)
Theorem split_appends_words :
  forall (str : string) (words : list string),
    split str words
    = Some (words ++ stream_words str
            ++ [last (stream_words str) EmptyString]).
Proof.
  intros str words. unfold split. apply split_loop_enough. lia.
Qed.

(** X10: For words without white space joined by single spaces, [split] gives
    the words back, followed by a second copy of the last one. *)
Theorem split_concat :
  forall (ws words : list string),
    Forall (fun w => is_keyword w = true) ws ->
    split (String.concat " " ws) words
    = Some (words ++ ws ++ [last ws EmptyString]).
Proof.
  intros ws words Hws. unfold split. rewrite split_loop_enough by lia.
  now rewrite stream_words_concat.
Qed.

Lemma split_concat_witness :
  split (String.concat " " ["fzn-gecode"; "-a"]) ["mzn"]
  = Some (["mzn"] ++ ["fzn-gecode"; "-a"] ++ ["-a"]).
Proof.
  apply (split_concat ["fzn-gecode"; "-a"] ["mzn"]).
  repeat constructor.
Defined.

(** ** HadOne *)

Lemma concat_cons (sep x : string) (l : list string) :
  String.concat sep (x :: l)
  = (x ++ match l with
          | [] => EmptyString
          | _ => sep ++ String.concat sep l
          end)%string.
Proof. destruct l; simpl; [now rewrite app_empty_r | reflexivity]. Qed.

Lemma HadOne_calls_from (N : Type) (P : HadOne.Printable N) (f : bool)
    (args : list (N * option string)) :
  concat_all (fst (HadOne.calls f args))
  = match HadOne.items args with
    | [] => EmptyString
    | l => ((if f then ", " else "") ++ String.concat ", " l)%string
    end
  /\ snd (HadOne.calls f args)
     = f || existsb (fun a => HadOne.to_bool (fst a)) args.
Proof.
  revert f. induction args as [| [val descr] rest IH]; intros f.
  - simpl. now rewrite orb_false_r.
  - cbn [HadOne.calls]. unfold HadOne.call, HadOne.items.
    cbn [filter existsb fst].
    destruct (HadOne.to_bool val) eqn:Hv.
    + destruct (IH true) as [IHs IHf].
      destruct (HadOne.calls true rest) as [ss f'] eqn:Ec.
      cbn [fst snd] in *.
      split; [| now rewrite IHf, orb_true_r].
      unfold concat_all at 1. cbn [fold_right]. fold (concat_all ss).
      rewrite IHs. cbn [map].
      change (map HadOne.item
                (filter (fun a => HadOne.to_bool (fst a)) rest))
        with (HadOne.items rest).
      rewrite concat_cons. unfold HadOne.item at 1. cbn [fst snd].
      destruct descr as [d |], (HadOne.items rest) as [| x l], f;
        simpl; rewrite ?app_empty_r, ?app_assoc_string; reflexivity.
    + destruct (IH f) as [IHs IHf].
      destruct (HadOne.calls f rest) as [ss f'] eqn:Ec.
      cbn [fst snd] in *.
      split; [exact IHs | now rewrite IHf].
Qed.

(** X11: On a new object, or after [reset], the strings that calls in a row
    return make up the list of the items whose value is not zero, with a
    comma and a space between two items; the object converts to [true]
    afterwards exactly when there was such a value. *)
Theorem HadOne_calls_output :
  forall (N : Type) (P : HadOne.Printable N) (f : bool)
         (args : list (N * option string)),
    concat_all (fst (HadOne.calls (HadOne.reset f) args))
    = String.concat ", " (HadOne.items args)
    /\ HadOne.operator_bool (snd (HadOne.calls (HadOne.reset f) args))
       = existsb (fun a => HadOne.to_bool (fst a)) args.
Proof.
  intros N P f args. unfold HadOne.reset, HadOne.operator_bool.
  destruct (HadOne_calls_from N P false args) as [Hs Hf].
  split; [| exact Hf]. rewrite Hs.
  destruct (HadOne.items args); reflexivity.
Qed.

(** X12: On an object that has written an item, the first item that further
    calls write is preceded by a comma and a space, and the object goes on
    converting to [true]. *)
Theorem HadOne_calls_continue :
  forall (N : Type) (P : HadOne.Printable N)
         (args : list (N * option string)),
    HadOne.items args <> [] ->
    concat_all (fst (HadOne.calls true args))
    = (", " ++ String.concat ", " (HadOne.items args))%string
    /\ snd (HadOne.calls true args) = true.
Proof.
  intros N P args Hne.
  destruct (HadOne_calls_from N P true args) as [Hs Hf].
  split; [| exact Hf]. rewrite Hs.
  destruct (HadOne.items args); [congruence | reflexivity].
Qed.

Lemma HadOne_calls_continue_witness :
  concat_all (fst (HadOne.calls (P := HadOne.IntPrintable) true
                     [(0, Some " errors"); (12, Some " warnings")]))
  = ", 12 warnings"
  /\ snd (HadOne.calls (P := HadOne.IntPrintable) true
            [(0, Some " errors"); (12, Some " warnings")])
     = true.
Proof.
  apply (HadOne_calls_continue Z HadOne.IntPrintable
           [(0, Some " errors"); (12, Some " warnings")]).
  discriminate.
Defined.

(** ** vec_string2vec_pchar *)

Lemma resize_length {A : Type} (n : nat) (x : A) (v : list A) :
  List.length (resize n x v) = n.
Proof.
  unfold resize. rewrite List.length_app, length_firstn, repeat_length. lia.
Qed.

Lemma assign_at_app {A : Type} (done : list A) (y : A) (todo : list A)
    (x : A) :
  assign_at (done ++ y :: todo) (List.length done) x = done ++ x :: todo.
Proof.
  induction done as [| a done IH]; simpl; [reflexivity | now rewrite IH].
Qed.

Lemma vec_loop_invariant (done : list string)
    (todo : list (option string)) (rest : list string) :
  List.length todo = List.length rest ->
  vec_loop (List.length rest) (List.length done) (done ++ rest)
           (map Some done ++ todo)
  = map Some (done ++ rest).
Proof.
  revert done todo. induction rest as [| s rest IH]; intros done todo Hlen.
  - destruct todo; [| discriminate]. simpl. now rewrite !app_nil_r.
  - destruct todo as [| p todo]; [discriminate |]. simpl.
    replace (List.length done) with (List.length (map Some done)) at 2
      by apply length_map.
    rewrite assign_at_app.
    rewrite app_nth2 by lia. rewrite Nat.sub_diag. simpl.
    specialize (IH (done ++ [s]) todo).
    rewrite <- !app_assoc, List.length_app, map_app in IH. simpl in IH.
    rewrite Nat.add_1_r in IH. rewrite <- app_assoc in IH. simpl in IH.
    apply IH. simpl in Hlen. lia.
Qed.

(** X13: Whatever [vPC] held, after the call it has one pointer for each string
    of [vS], in the same order, and each points to the characters of its
    string. *)
Theorem vec_string2vec_pchar_map :
  forall (vS : list string) (vPC : list (option string)),
    vec_string2vec_pchar vS vPC = map Some vS.
Proof.
  intros vS vPC. unfold vec_string2vec_pchar.
  apply (vec_loop_invariant [] (resize (List.length vS) None vPC) vS).
  apply resize_length.
Qed.

(** ** beginswith *)

(** X14: [beginswith(s, t)] holds exactly when [s] is [t] followed by some
    characters, possibly none. *)
Theorem beginswith_prefix :
  forall s t : string,
    beginswith s t = true <-> exists r : string, s = (t ++ r)%string.
Proof.
  intros s t. unfold beginswith. rewrite <- compare_prefix.
  destruct (compare s 0 (String.length t) t); split; congruence.
Qed.

Lemma beginswith_prefix_witness : beginswith "--solver" "--" = true.
Proof.
  apply (beginswith_prefix "--solver" "--"). exists "solver". reflexivity.
Defined.

(** ** The order of versions *)

Ltac version_cases :=
  repeat match goal with
         | v : SemanticVersion.t |- _ => destruct v
         end;
  unfold SemanticVersion.operator_lt, SemanticVersion.operator_le,
    SemanticVersion.operator_eq, SemanticVersion.lex_le,
    SemanticVersion.lex_lt, SemanticVersion.fieldwise_le in *;
  cbn [SemanticVersion.major SemanticVersion.minor SemanticVersion.patch]
    in *;
  rewrite ?Z.gtb_ltb in *;
  repeat match goal with
         | H : context [?x <? ?y] |- _ => destruct (Z.ltb_spec x y)
         | |- context [?x <? ?y] => destruct (Z.ltb_spec x y)
         | H : context [?x =? ?y] |- _ => destruct (Z.eqb_spec x y)
         | |- context [?x =? ?y] => destruct (Z.eqb_spec x y)
         end;
  cbn [andb orb negb] in *.

(** X15: [operator<=] compares field by field: it holds exactly when no field
    of the left version is above the field of the right one.  It is
    reflexive and transitive, and two versions that are below each other
    are equal, and equal for [operator==]. *)
Theorem operator_le_fieldwise :
  (forall a b : SemanticVersion.t,
      SemanticVersion.operator_le a b = true
      <-> SemanticVersion.fieldwise_le a b)
  /\ (forall a : SemanticVersion.t, SemanticVersion.operator_le a a = true)
  /\ (forall a b c : SemanticVersion.t,
         SemanticVersion.operator_le a b = true ->
         SemanticVersion.operator_le b c = true ->
         SemanticVersion.operator_le a c = true)
  /\ (forall a b : SemanticVersion.t,
         SemanticVersion.operator_le a b = true ->
         SemanticVersion.operator_le b a = true ->
         a = b /\ SemanticVersion.operator_eq a b = true).
Proof.
  split; [| split; [| split]].
  - intros a b. version_cases; split; intros; try discriminate;
      try reflexivity; lia.
  - intros a. version_cases; try reflexivity; lia.
  - intros a b c Hab Hbc. version_cases; try discriminate;
      try reflexivity; lia.
  - intros a b Hab Hba. version_cases; try discriminate;
      try (exfalso; lia); subst; split; reflexivity.
Qed.

Lemma operator_le_fieldwise_witness :
  SemanticVersion.operator_le (SemanticVersion.mk 2 14 0)
                              (SemanticVersion.mk 2 15 1) = true.
Proof.
  destruct operator_le_fieldwise as (Hiff & _).
  apply (Hiff (SemanticVersion.mk 2 14 0) (SemanticVersion.mk 2 15 1)).
  unfold SemanticVersion.fieldwise_le. simpl. lia.
Defined.

(** X16: for all versions, [a < b] for [operator<] is the same as not
    [b <= a] for [operator<=]. *)
Theorem operator_lt_not_ge :
  forall a b : SemanticVersion.t,
    SemanticVersion.operator_lt a b
    = negb (SemanticVersion.operator_le b a).
Proof.
  intros a b. version_cases; try reflexivity; lia.
Qed.

(** X17: Between two versions of which one is below the other field by field,
    both operators give the lexicographic order. *)
Theorem operators_lexicographic_when_comparable :
  forall a b : SemanticVersion.t,
    SemanticVersion.operator_le a b = true
    \/ SemanticVersion.operator_le b a = true ->
    SemanticVersion.operator_lt a b = SemanticVersion.lex_lt a b
    /\ SemanticVersion.operator_le a b = SemanticVersion.lex_le a b.
Proof.
  intros a b H. version_cases; destruct H; try discriminate;
    split; try reflexivity; lia.
Qed.

Lemma operators_lexicographic_when_comparable_witness :
  SemanticVersion.operator_lt (SemanticVersion.mk 2 8 5)
                              (SemanticVersion.mk 2 9 5)
  = SemanticVersion.lex_lt (SemanticVersion.mk 2 8 5)
                           (SemanticVersion.mk 2 9 5)
  /\ SemanticVersion.operator_le (SemanticVersion.mk 2 8 5)
                                 (SemanticVersion.mk 2 9 5)
     = SemanticVersion.lex_le (SemanticVersion.mk 2 8 5)
                              (SemanticVersion.mk 2 9 5).
Proof.
  apply (operators_lexicographic_when_comparable
           (SemanticVersion.mk 2 8 5) (SemanticVersion.mk 2 9 5)).
  left. reflexivity.
Defined.

(** ** Decimal digits *)

Lemma digit_char_digit (d : Z) :
  0 <= d < 10 ->
  isdigit (digit_char d) = true /\ digit_value (digit_char d) = d.
Proof.
  intros Hd.
  assert (H : d = 0 \/ d = 1 \/ d = 2 \/ d = 3 \/ d = 4 \/ d = 5 \/ d = 6
              \/ d = 7 \/ d = 8 \/ d = 9) by lia.
  repeat (destruct H as [-> | H]; [split; reflexivity |]).
  subst d. split; reflexivity.
Qed.

(** A digit is not white space, nor a sign, nor a dot. *)
Lemma isdigit_other (c : ascii) :
  isdigit c = true ->
  isspace c = false /\ Ascii.eqb c "-" = false /\ Ascii.eqb c "+" = false
  /\ Ascii.eqb c "." = false.
Proof.
  unfold isdigit, isspace. intros H. apply andb_prop in H as [Hlo Hhi].
  apply N.leb_le in Hlo, Hhi.
  repeat split.
  - apply orb_false_iff. split.
    + apply N.eqb_neq. lia.
    + apply andb_false_iff. right. apply N.leb_gt. lia.
  - destruct (Ascii.eqb_spec c "-") as [-> | _]; [| reflexivity].
    simpl in Hlo. lia.
  - destruct (Ascii.eqb_spec c "+") as [-> | _]; [| reflexivity].
    simpl in Hlo. lia.
  - destruct (Ascii.eqb_spec c ".") as [-> | _]; [| reflexivity].
    simpl in Hlo. lia.
Qed.

Lemma read_digits_stop (acc : Z) (rest : string) :
  no_leading_digit rest = true -> read_digits acc rest = (acc, rest).
Proof.
  destruct rest as [| c r]; simpl; [reflexivity |].
  intros H. apply negb_true_iff in H. now rewrite H.
Qed.

(** Reading the digits that were printed gives the number back. *)
Lemma read_print_digits (fuel : nat) (n : Z) (acc rest : string) :
  0 <= n < 10 ^ Z.of_nat fuel ->
  read_digits 0 (print_digits fuel n acc ++ rest)
  = read_digits n (acc ++ rest).
Proof.
  revert n acc. induction fuel as [| fuel IH]; intros n acc Hn.
  - simpl in *. replace n with 0 by lia. reflexivity.
  - rewrite Nat2Z.inj_succ, Z.pow_succ_r in Hn by lia.
    pose proof (Z.mod_pos_bound n 10 ltac:(lia)) as Hm.
    destruct (digit_char_digit (n mod 10) Hm) as [Hd Hv].
    pose proof (Z.div_mod n 10 ltac:(lia)) as Hdm.
    cbn [print_digits]. destruct (Z.eqb_spec (n / 10) 0) as [Hz | Hnz].
    + cbn [append read_digits]. rewrite Hd, Hv. f_equal. lia.
    + rewrite IH.
      * cbn [append read_digits]. rewrite Hd, Hv. f_equal. lia.
      * split; [apply Z.div_pos; lia |].
        apply Z.div_lt_upper_bound; lia.
Qed.

Lemma print_digits_head (fuel : nat) (n : Z) (acc : string) :
  no_leading_digit (print_digits (S fuel) n acc) = false.
Proof.
  revert n acc. induction fuel as [| fuel IH]; intros n acc.
  - pose proof (Z.mod_pos_bound n 10 ltac:(lia)) as Hm.
    destruct (digit_char_digit (n mod 10) Hm) as [Hd _].
    cbn [print_digits]. destruct (n / 10 =? 0);
      cbn [no_leading_digit]; now rewrite Hd.
  - pose proof (Z.mod_pos_bound n 10 ltac:(lia)) as Hm.
    destruct (digit_char_digit (n mod 10) Hm) as [Hd _].
    change (print_digits (S (S fuel)) n acc)
      with (if n / 10 =? 0 then String (digit_char (n mod 10)) acc
            else print_digits (S fuel) (n / 10)
                   (String (digit_char (n mod 10)) acc)).
    destruct (n / 10 =? 0);
      [cbn [no_leading_digit]; now rewrite Hd | apply IH].
Qed.

(** The digits end with the last digit of the number, and there are
    [fuel] of them at most. *)
Lemma print_digits_last (fuel : nat) (n : Z) (acc : string) :
  exists pre : string,
    print_digits fuel n acc = (pre ++ acc)%string
    /\ (String.length pre <= fuel)%nat.
Proof.
  revert n acc. induction fuel as [| fuel IH]; intros n acc.
  - exists EmptyString. split; [reflexivity | simpl; lia].
  - cbn [print_digits]. destruct (n / 10 =? 0).
    + exists (String (digit_char (n mod 10)) EmptyString).
      split; [reflexivity | simpl; lia].
    + destruct (IH (n / 10) (String (digit_char (n mod 10)) acc))
        as (pre & -> & Hlen).
      exists (pre ++ String (digit_char (n mod 10)) EmptyString)%string.
      split.
      * now rewrite app_assoc_string.
      * rewrite length_app. simpl. lia.
Qed.

Lemma print_unsigned_last (n : Z) :
  exists (pre : string) (c : ascii),
    print_unsigned n = (pre ++ String c EmptyString)%string
    /\ isdigit c = true /\ (String.length pre <= 9)%nat.
Proof.
  unfold print_unsigned.
  pose proof (Z.mod_pos_bound n 10 ltac:(lia)) as Hm.
  destruct (digit_char_digit (n mod 10) Hm) as [Hd _].
  change (print_digits 10 n EmptyString)
    with (if n / 10 =? 0 then String (digit_char (n mod 10)) EmptyString
          else print_digits 9 (n / 10)
                 (String (digit_char (n mod 10)) EmptyString)).
  destruct (n / 10 =? 0).
  - exists EmptyString, (digit_char (n mod 10)).
    repeat split; [assumption | simpl; lia].
  - destruct (print_digits_last 9 (n / 10)
                (String (digit_char (n mod 10)) EmptyString))
      as (pre & -> & Hlen).
    exists pre, (digit_char (n mod 10)). now repeat split.
Qed.

Lemma print_unsigned_head (n : Z) :
  exists (c : ascii) (r : string),
    print_unsigned n = String c r /\ isdigit c = true.
Proof.
  pose proof (print_digits_head 9 n EmptyString) as H.
  unfold print_unsigned. destruct (print_digits 10 n EmptyString) as [| c r].
  - discriminate.
  - exists c, r. split; [reflexivity |]. simpl in H.
    now apply negb_false_iff in H.
Qed.

(** [%d] on a printed number that is followed by no further digit. *)
Lemma scan_d_print (n : Z) (rest : string) :
  0 <= n <= Int.INT_MAX ->
  no_leading_digit rest = true ->
  SemanticVersion.scan_d (print_unsigned n ++ rest)
  = SemanticVersion.Converted n rest.
Proof.
  intros Hn Hrest. unfold SemanticVersion.scan_d.
  destruct (print_unsigned_head n) as (c & r & Hp & Hc).
  destruct (isdigit_other c Hc) as (Hs & Hminus & Hplus & _).
  assert (Hread : read_digits 0 (print_unsigned n ++ rest) = (n, rest)).
  { unfold print_unsigned. rewrite read_print_digits.
    - now apply read_digits_stop.
    - unfold Int.INT_MAX in Hn. change (10 ^ Z.of_nat 10) with 10000000000.
      lia. }
  rewrite Hp in *. cbn [append skipws]. rewrite Hs.
  cbn [read_sign]. rewrite Hminus, Hplus.
  cbn [no_leading_digit]. rewrite Hc. cbn [negb].
  change (String c (r ++ rest)) with (String c r ++ rest)%string.
  rewrite Hread.
  unfold Int.INT_MIN, Int.INT_MAX in *.
  replace (- 2 ^ 31 <=? n) with true by (symmetry; apply Z.leb_le; lia).
  replace (n <=? 2 ^ 31 - 1) with true by (symmetry; apply Z.leb_le; lia).
  reflexivity.
Qed.

(** ** The construction of a version from a string *)

Lemma substring_skip (pre s : string) (m : nat) :
  substring (String.length pre) m (pre ++ s) = substring 0 m s.
Proof. induction pre as [| c pre IH]; simpl; [reflexivity | exact IH]. Qed.

Lemma compare_first (c : ascii) (r : string) :
  compare (String c r) 0 1 "." = Eq <-> c = "."%char.
Proof.
  unfold compare. rewrite string_compare_Eq. simpl.
  replace (substring 0 0 r) with EmptyString by (now destruct r).
  split; [now intros [= ->] | now intros ->].
Qed.

Lemma compare_last (pre : string) (c : ascii) :
  compare (pre ++ String c EmptyString) (String.length pre) 1 "." = Eq
  <-> c = "."%char.
Proof.
  unfold compare. rewrite string_compare_Eq, length_app. simpl.
  replace (String.length pre + 1 - String.length pre)%nat with 1%nat by lia.
  simpl. rewrite substring_skip. simpl.
  split; [now intros [= ->] | now intros ->].
Qed.

Lemma last_position (pre : string) (c : ascii) :
  Z.of_nat (String.length pre) < 2 ^ 63 ->
  Int.to_size_t (size (pre ++ String c EmptyString) - 1)
  = Z.of_nat (String.length pre).
Proof.
  intros H. unfold size, Int.to_size_t. rewrite length_app. simpl.
  rewrite Z.mod_small; lia.
Qed.

(** A string from a character other than the dot to a character other
    than the dot goes to [sscanf] as it is. *)
Lemma from_string_plain (s pre : string) (c : ascii) (r : string)
    (d : ascii) :
  s = String c r ->
  s = (pre ++ String d EmptyString)%string ->
  c <> "."%char -> d <> "."%char ->
  Z.of_nat (String.length pre) < 2 ^ 63 ->
  SemanticVersion.from_string s
  = match SemanticVersion.sscanf s (SemanticVersion.mk 0 0 0) with
    | Some v => SemanticVersion.Constructed v
    | None => SemanticVersion.Undefined
    end.
Proof.
  intros Hhead Hlast Hc Hd Hlen. unfold SemanticVersion.from_string.
  assert (H1 : compare s 0 1 "." <> Eq).
  { rewrite Hhead. intros E. now apply compare_first in E. }
  assert (Hpos : Int.to_size_t (size s - 1) = Z.of_nat (String.length pre)).
  { rewrite Hlast. now apply last_position. }
  assert (Hsize : (size s <? Z.of_nat (String.length pre)) = false).
  { apply Z.ltb_ge. rewrite Hlast. unfold size. rewrite length_app. lia. }
  assert (H2 : compare s (String.length pre) 1 "." <> Eq).
  { rewrite Hlast. intros E. now apply compare_last in E. }
  destruct (compare s 0 1 "."); [contradiction | |];
    rewrite Hpos, Hsize, Nat2Z.id;
    (destruct (compare s (String.length pre) 1 ".");
     [contradiction | reflexivity | reflexivity]).
Qed.

(** A string that ends with a dot gets a zero after the dot. *)
Lemma from_string_trailing_dot (s pre : string) (c : ascii) (r : string) :
  s = String c r ->
  s = (pre ++ ".")%string ->
  c <> "."%char ->
  Z.of_nat (String.length pre) < 2 ^ 63 ->
  SemanticVersion.from_string s
  = match SemanticVersion.sscanf (s ++ "0") (SemanticVersion.mk 0 0 0) with
    | Some v => SemanticVersion.Constructed v
    | None => SemanticVersion.Undefined
    end.
Proof.
  intros Hhead Hlast Hc Hlen. unfold SemanticVersion.from_string.
  assert (H1 : compare s 0 1 "." <> Eq).
  { rewrite Hhead. intros E. now apply compare_first in E. }
  assert (Hpos : Int.to_size_t (size s - 1) = Z.of_nat (String.length pre)).
  { rewrite Hlast. now apply last_position. }
  assert (Hsize : (size s <? Z.of_nat (String.length pre)) = false).
  { apply Z.ltb_ge. rewrite Hlast. unfold size. rewrite length_app. lia. }
  assert (H2 : compare s (String.length pre) 1 "." = Eq).
  { rewrite Hlast. now apply compare_last. }
  destruct (compare s 0 1 "."); [contradiction | |];
    rewrite Hpos, Hsize, Nat2Z.id, H2; reflexivity.
Qed.

(** A string that starts with a dot is read as the string with a zero in
    front. *)
Lemma from_string_leading_dot (r : string) :
  SemanticVersion.from_string (String "." r)
  = SemanticVersion.from_string (String "0" (String "." r)).
Proof.
  unfold SemanticVersion.from_string.
  replace (compare (String "." r) 0 1 ".") with Eq
    by (symmetry; now apply compare_first).
  destruct (compare (String "0" (String "." r)) 0 1 ".") eqn:E;
    [apply compare_first in E; discriminate | |]; reflexivity.
Qed.

Lemma to_unsigned_small (n : Z) :
  0 <= n <= Int.INT_MAX -> SemanticVersion.to_unsigned n = n.
Proof.
  unfold SemanticVersion.to_unsigned, Int.INT_MAX. intros H.
  apply Z.mod_small. lia.
Qed.

Lemma sscanf_one (a : Z) (v : SemanticVersion.t) :
  0 <= a <= Int.INT_MAX ->
  SemanticVersion.sscanf (print_unsigned a) v
  = Some (SemanticVersion.mk a (SemanticVersion.minor v)
                             (SemanticVersion.patch v)).
Proof.
  intros Ha. unfold SemanticVersion.sscanf.
  rewrite <- (app_empty_r (print_unsigned a)).
  rewrite scan_d_print by (assumption || reflexivity).
  simpl. now rewrite to_unsigned_small.
Qed.

Lemma sscanf_two (a b : Z) (v : SemanticVersion.t) :
  0 <= a <= Int.INT_MAX -> 0 <= b <= Int.INT_MAX ->
  SemanticVersion.sscanf (print_unsigned a ++ "." ++ print_unsigned b) v
  = Some (SemanticVersion.mk a b (SemanticVersion.patch v)).
Proof.
  intros Ha Hb. unfold SemanticVersion.sscanf.
  rewrite scan_d_print by (assumption || reflexivity).
  cbn [append SemanticVersion.scan_dot Ascii.eqb Bool.eqb].
  rewrite <- (app_empty_r (print_unsigned b)).
  rewrite scan_d_print by (assumption || reflexivity).
  simpl. now rewrite !to_unsigned_small.
Qed.

Lemma sscanf_three (a b c : Z) (v : SemanticVersion.t) :
  0 <= a <= Int.INT_MAX -> 0 <= b <= Int.INT_MAX ->
  0 <= c <= Int.INT_MAX ->
  SemanticVersion.sscanf
    (print_unsigned a ++ "." ++ print_unsigned b ++ "." ++ print_unsigned c)
    v
  = Some (SemanticVersion.mk a b c).
Proof.
  intros Ha Hb Hc. unfold SemanticVersion.sscanf.
  rewrite scan_d_print by (assumption || reflexivity).
  cbn [append SemanticVersion.scan_dot Ascii.eqb Bool.eqb].
  change (String "." (print_unsigned c))
    with ("." ++ print_unsigned c)%string.
  rewrite scan_d_print by (assumption || reflexivity).
  cbn [append SemanticVersion.scan_dot Ascii.eqb Bool.eqb].
  rewrite <- (app_empty_r (print_unsigned c)).
  rewrite scan_d_print by (assumption || reflexivity).
  simpl. now rewrite !to_unsigned_small.
Qed.

Lemma print_unsigned_length (n : Z) :
  (String.length (print_unsigned n) <= 10)%nat.
Proof.
  destruct (print_unsigned_last n) as (pre & c & -> & _ & Hlen).
  rewrite length_app. simpl. lia.
Qed.

Lemma isdigit_not_dot (c : ascii) : isdigit c = true -> c <> "."%char.
Proof. intros H ->. discriminate. Qed.

(** X18: A version whose fields an [int] can hold is constructed again from the
    characters that [operator<<] writes for it. *)
Theorem from_string_print :
  forall v : SemanticVersion.t,
    0 <= SemanticVersion.major v <= Int.INT_MAX ->
    0 <= SemanticVersion.minor v <= Int.INT_MAX ->
    0 <= SemanticVersion.patch v <= Int.INT_MAX ->
    SemanticVersion.from_string (SemanticVersion.print v)
    = SemanticVersion.Constructed v.
Proof.
  intros [a b c]. cbn [SemanticVersion.major SemanticVersion.minor
                       SemanticVersion.patch]. intros Ha Hb Hc.
  unfold SemanticVersion.print.
  cbn [SemanticVersion.major SemanticVersion.minor SemanticVersion.patch].
  destruct (print_unsigned_head a) as (c0 & r0 & Hhead & Hc0).
  destruct (print_unsigned_last c) as (pre & d & Hlast & Hd & Hpre).
  pose proof (print_unsigned_length a) as La.
  pose proof (print_unsigned_length b) as Lb.
  rewrite (from_string_plain _
             (print_unsigned a ++ "." ++ print_unsigned b ++ "." ++ pre)
             c0 (r0 ++ "." ++ print_unsigned b ++ "." ++ print_unsigned c)
             d).
  - now rewrite sscanf_three.
  - now rewrite Hhead.
  - rewrite Hlast. now rewrite !app_assoc_string.
  - now apply isdigit_not_dot.
  - now apply isdigit_not_dot.
  - rewrite !length_app. simpl. lia.
Qed.

Lemma from_string_print_witness :
  SemanticVersion.from_string
    (SemanticVersion.print (SemanticVersion.mk 2 8 12))
  = SemanticVersion.Constructed (SemanticVersion.mk 2 8 12).
Proof.
  apply (from_string_print (SemanticVersion.mk 2 8 12));
    unfold Int.INT_MAX; simpl; lia.
Defined.

(** X19: Fields that the string does not give are zero, and a dot at either
    end of the string stands for a zero next to it: for numbers [a] and [b]
    that an [int] can hold, the strings [a], [a.b], [.b] and [a.] give the
    versions a.0.0, a.b.0, 0.b.0 and a.0.0. *)
Theorem from_string_partial :
  forall a b : Z,
    0 <= a <= Int.INT_MAX ->
    0 <= b <= Int.INT_MAX ->
    SemanticVersion.from_string (print_unsigned a)
    = SemanticVersion.Constructed (SemanticVersion.mk a 0 0)
    /\ SemanticVersion.from_string
         (print_unsigned a ++ "." ++ print_unsigned b)
       = SemanticVersion.Constructed (SemanticVersion.mk a b 0)
    /\ SemanticVersion.from_string ("." ++ print_unsigned b)
       = SemanticVersion.Constructed (SemanticVersion.mk 0 b 0)
    /\ SemanticVersion.from_string (print_unsigned a ++ ".")
       = SemanticVersion.Constructed (SemanticVersion.mk a 0 0).
Proof.
  intros a b Ha Hb.
  destruct (print_unsigned_head a) as (c0 & r0 & Hhead & Hc0).
  destruct (print_unsigned_last a) as (prea & da & Hlasta & Hda & Hprea).
  destruct (print_unsigned_last b) as (preb & db & Hlastb & Hdb & Hpreb).
  pose proof (print_unsigned_length a) as La.
  apply isdigit_not_dot in Hc0, Hda, Hdb.
  split; [| split; [| split]].
  - rewrite (from_string_plain _ prea c0 r0 da); try assumption.
    + now rewrite sscanf_one.
    + lia.
  - rewrite (from_string_plain _ (print_unsigned a ++ "." ++ preb)
               c0 (r0 ++ "." ++ print_unsigned b) db); try assumption.
    + now rewrite sscanf_two.
    + now rewrite Hhead.
    + rewrite Hlastb. now rewrite !app_assoc_string.
    + rewrite !length_app. simpl. lia.
  - change ("." ++ print_unsigned b)%string
      with (String "." (print_unsigned b)).
    rewrite from_string_leading_dot.
    rewrite (from_string_plain _ ("0." ++ preb) "0"
               (String "." (print_unsigned b)) db); try assumption.
    + change (String "0" (String "." (print_unsigned b)))
        with (print_unsigned 0 ++ "." ++ print_unsigned b)%string.
      rewrite sscanf_two; [reflexivity | unfold Int.INT_MAX; lia | exact Hb].
    + reflexivity.
    + rewrite Hlastb. reflexivity.
    + discriminate.
    + simpl. lia.
  - rewrite (from_string_trailing_dot _ (print_unsigned a) c0 (r0 ++ "."));
      try assumption.
    + rewrite app_assoc_string.
      change ("." ++ "0")%string with ("." ++ print_unsigned 0)%string.
      rewrite sscanf_two; [reflexivity | exact Ha | unfold Int.INT_MAX; lia].
    + now rewrite Hhead.
    + reflexivity.
    + lia.
Qed.

Lemma from_string_partial_witness :
  SemanticVersion.from_string (print_unsigned 2)
  = SemanticVersion.Constructed (SemanticVersion.mk 2 0 0)
  /\ SemanticVersion.from_string (print_unsigned 2 ++ "." ++ print_unsigned 8)
     = SemanticVersion.Constructed (SemanticVersion.mk 2 8 0)
  /\ SemanticVersion.from_string ("." ++ print_unsigned 8)
     = SemanticVersion.Constructed (SemanticVersion.mk 0 8 0)
  /\ SemanticVersion.from_string (print_unsigned 2 ++ ".")
     = SemanticVersion.Constructed (SemanticVersion.mk 2 0 0).
Proof.
  apply (from_string_partial 2 8); unfold Int.INT_MAX; lia.
Defined.

(** X20: The construction throws [std::out_of_range] for the empty string, and
    for no other string. *)
Theorem from_string_out_of_range :
  forall version : string,
    SemanticVersion.from_string version = SemanticVersion.OutOfRange
    <-> version = EmptyString.
Proof.
  intros version. split; [| now intros ->].
  destruct version as [| c r]; [reflexivity |].
  unfold SemanticVersion.from_string.
  set (v1 := match compare (String c r) 0 1 "." with
             | Eq => ("0" ++ String c r)%string
             | _ => String c r
             end).
  assert (Hv1 : 1 <= size v1).
  { subst v1. unfold size.
    destruct (compare (String c r) 0 1 "."); simpl String.length; lia. }
  assert (Hpos : (size v1 <? Int.to_size_t (size v1 - 1)) = false).
  { apply Z.ltb_ge. unfold Int.to_size_t.
    pose proof (Z.mod_le (size v1 - 1) (2 ^ 64) ltac:(lia) ltac:(lia)).
    lia. }
  rewrite Hpos.
  destruct (SemanticVersion.sscanf _ _); discriminate.
Qed.

Lemma from_string_out_of_range_witness :
  SemanticVersion.from_string "" = SemanticVersion.OutOfRange.
Proof. apply (from_string_out_of_range ""). reflexivity. Defined.

(** ** The operators and the lexicographic order *)

(** X21: [operator<] holds between every two versions of which the first is
    below the second in the lexicographic order, and [operator<=] holds
    only between versions of which the first is below or equal to the
    second in that order: the first operator accepts too much, the second
    too little, and never the other way round. *)
Theorem operators_bracket_lexicographic :
  forall a b : SemanticVersion.t,
    (SemanticVersion.lex_lt a b = true ->
     SemanticVersion.operator_lt a b = true)
    /\ (SemanticVersion.operator_le a b = true ->
        SemanticVersion.lex_le a b = true).
Proof.
  intros a b. split; intros H; version_cases; try discriminate;
    try reflexivity; lia.
Qed.

Lemma operators_bracket_lexicographic_witness :
  SemanticVersion.operator_lt (SemanticVersion.mk 1 9 9)
                              (SemanticVersion.mk 2 0 0) = true
  /\ SemanticVersion.lex_le (SemanticVersion.mk 1 2 3)
                            (SemanticVersion.mk 1 2 4) = true.
Proof.
  destruct (operators_bracket_lexicographic (SemanticVersion.mk 1 9 9)
              (SemanticVersion.mk 2 0 0)) as [Hlt _].
  destruct (operators_bracket_lexicographic (SemanticVersion.mk 1 2 3)
              (SemanticVersion.mk 1 2 4)) as [_ Hle].
  split; [apply Hlt | apply Hle]; reflexivity.
Defined.
